(** * CppNumericalSolvers: the Problem contract, the finite-difference engine,
      the derivative checker, bounded problems and the Armijo line searches.

    Shallow embedding of
      - include/cppoptlib/problem.h         (class Problem)
      - include/cppoptlib/boundedproblem.h  (class BoundedProblem)
      - include/cppoptlib/linesearch/armijo.h (class Armijo, orders 1 and 2)

    Scalars are modelled in exact arithmetic: [Scalar] is the type [Qc] of
    rationals in canonical form, so that equality of scalars is Leibniz
    equality and an objective is simply a function on vectors.  Rounding of
    IEEE doubles is outside this model; module [Double] gives
    [finiteHessian] once more with [Scalar = double], for the statements
    about the values that the code computes.

    The functions are first embedded on values (a [const &] argument is a
    value, an out-parameter is a result); module [Ref] then gives the calls
    by reference on a store of the caller's objects. *)

From Stdlib Require Import QArith Qcanon Qabs ZArith Lia Lra Psatz.
From Stdlib Require Qcabs.
From Stdlib Require Import Floats.
From stdpp Require Import base tactics option list gmap.

Local Open Scope Qc_scope.

(** ** Scalars, vectors and matrices (Eigen::Matrix<Scalar, Dim, 1> etc.) *)

Abbreviation Scalar := Qc (only parsing).
Abbreviation Vector := (list Qc) (only parsing).
(** A matrix is the list of its rows. *)
Abbreviation Matrix := (list (list Qc)) (only parsing).

(** Integer and decimal literals of the source. *)
Definition sc (z : Z) : Scalar := Qc_of_Z z.
Definition dec (num : Z) (den : positive) : Scalar := Q2Qc (num # den).

(** Moves every comparison and operation on [Qc] to the underlying [Q],
    where [lra] and [nra] apply. *)
Ltac qc_to_q :=
  unfold Qcle, Qclt in *;
  repeat progress
    (unfold Qcplus, Qcmult, Qcminus, Qcopp, Qcdiv, Qcinv, Q2Qc in *;
     cbn [this] in * );
  repeat rewrite Qred_correct in *.

(** Settles a closed decidable statement by evaluation. *)
Ltac by_eval :=
  match goal with
  | |- ?P => apply (bool_decide_eq_true_1 P); vm_compute; reflexivity
  end.

(** ** Outcome of a call

    [Undefined] stands for undefined behaviour of the C++ code (indexing a
    table or a vector out of its range); [OutOfFuel] is the answer of a
    loop that did not leave within the iterations it was given. *)

Inductive result (A : Type) : Type :=
  | Ok (a : A)
  | Undefined
  | OutOfFuel.
Arguments Ok {A} a.
Arguments Undefined {A}.
Arguments OutOfFuel {A}.

Global Instance result_ret : MRet result := λ A a, Ok a.
Global Instance result_bind : MBind result := λ A B f m,
  match m with
  | Ok a => f a
  | Undefined => Undefined
  | OutOfFuel => OutOfFuel
  end.

(** A [for] loop over [l] that threads the loop state through the monad. *)
Fixpoint foldlM {A B : Type} (f : B → A → result B) (b : B) (l : list A)
  : result B :=
  match l with
  | [] => Ok b
  | a :: l' => b' ← f b a; foldlM f b' l'
  end.

(** [t[i]] for a [std::vector] and an [int] index: out of range is
    undefined behaviour. *)
Definition tbl_at {A : Type} (t : list A) (i : Z) : result A :=
  if decide (0 ≤ i)%Z then
    match t !! Z.to_nat i with
    | Some a => Ok a
    | None => Undefined
    end
  else Undefined.

(** [v[d]] read on an Eigen vector. *)
Definition vget (v : Vector) (d : nat) : result Scalar :=
  match v !! d with
  | Some a => Ok a
  | None => Undefined
  end.

(** [x + y], [alpha * x], [x.dot(y)], [m * x] of Eigen.  Eigen asks for
    operands of matching sizes and leaves the rest to the caller; here an
    operation stops at the shorter operand, and the statements that depend
    on sizes say so. *)
Definition vadd (x y : Vector) : Vector := zip_with Qcplus x y.
Definition vscale (a : Scalar) (x : Vector) : Vector := (Qcmult a) <$> x.
Fixpoint dot (x y : Vector) : Scalar :=
  match x, y with
  | a :: x', b :: y' => a * b + dot x' y'
  | _, _ => 0
  end.
Definition matvec (m : Matrix) (x : Vector) : Vector := (λ row, dot row x) <$> m.

(** [m(i, j)] read and write on an Eigen matrix. *)
Definition mget (m : Matrix) (i j : nat) : result Scalar :=
  match m !! i with
  | Some row => vget row j
  | None => Undefined
  end.
Definition mset (m : Matrix) (i j : nat) (v : Scalar) : result Matrix :=
  match m !! i with
  | Some row =>
      if decide (j < length row)%nat then Ok (<[i := <[j := v]> row]> m)
      else Undefined
  | None => Undefined
  end.

(** ** problem.h: the finite-difference engine *)

Module FiniteDiff.

(** [const Scalar eps = 2.2204e-6;] *)
Definition eps : Scalar := dec 22204 10000000000.

Definition coeff : list (list Scalar) :=
  [ [sc 1; sc (-1)];
    [sc 1; sc (-8); sc 8; sc (-1)];
    [sc (-1); sc 9; sc (-45); sc 45; sc (-9); sc 1];
    [sc 3; sc (-32); sc 168; sc (-672); sc 672; sc (-168); sc 32; sc (-3)] ].

Definition coeff2 : list (list Scalar) :=
  [ [sc 1; sc (-1)];
    [sc (-2); sc (-1); sc 1; sc 2];
    [sc (-3); sc (-2); sc (-1); sc 1; sc 2; sc 3];
    [sc (-4); sc (-3); sc (-2); sc (-1); sc 1; sc 2; sc 3; sc 4] ].

Definition dd : list Scalar := [sc 2; sc 12; sc 60; sc 840].

Section WithValue.
(** The virtual [value] of the concrete problem. *)
Variable value : Vector → Scalar.

(** Body of the loop over [s]:
    [xx = x.eval(); xx[d] += coeff2[accuracy][s]*eps;
     finiteDiff[d] += coeff[accuracy][s]*value(xx);] *)
Definition fg_step (x : Vector) (accuracy : Z) (d : nat)
    (finiteDiff : Vector) (s : Z) : result Vector :=
  let xx := x in
  row2 ← tbl_at coeff2 accuracy;
  c2 ← tbl_at row2 s;
  let xx := alter (λ v, v + c2 * eps) d xx in
  row ← tbl_at coeff accuracy;
  c ← tbl_at row s;
  Ok (alter (λ v, v + c * value xx) d finiteDiff).

(** Body of the loop over [d]. *)
Definition fg_coord (x : Vector) (accuracy : Z)
    (finiteDiff : Vector) (d : nat) : result Vector :=
  let finiteDiff := <[d := 0]> finiteDiff in
  finiteDiff ← foldlM (fg_step x accuracy d) finiteDiff
                 (seqZ 0 (2 * (accuracy + 1)));
  den ← tbl_at dd accuracy;
  Ok (alter (λ v, v / (den * eps)) d finiteDiff).

(** [finiteGradient(x, grad, accuracy)]; the result is the new content
    of the out-parameter [grad]. *)
Definition finiteGradient (x : Vector) (accuracy : Z) : result Vector :=
  foldlM (fg_coord x accuracy) (replicate (length x) 0) (seq 0 (length x)).

(** [const Scalar eps = std::numeric_limits<Scalar>::epsilon()*10e7;]
    with [Scalar = double], the instantiation of the examples:
    the machine epsilon is [2^-52] and [10e7] is [10^8]. *)
Definition machine_epsilon : Scalar := dec 1 (2 ^ 52).
Definition epsH : Scalar := machine_epsilon * sc 100000000.

(** Body of the double loop of the branch [accuracy == 0], up to the
    assignment to [hessian(i, j)]. *)
Definition fh0_entry (x : Vector) (i j : nat) : Scalar :=
  let xx := x in
  let f4 := value xx in
  let xx := alter (λ v, v + epsH) i xx in
  let xx := alter (λ v, v + epsH) j xx in
  let f1 := value xx in
  let xx := alter (λ v, v - epsH) j xx in
  let f2 := value xx in
  let xx := alter (λ v, v + epsH) j xx in
  let xx := alter (λ v, v - epsH) i xx in
  let f3 := value xx in
  (f1 - f2 - f3 + f4) / (epsH * epsH).

(** [xx = x.eval(); xx[i] += a*eps; xx[j] += b*eps; ... value(xx)] *)
Definition probe (x : Vector) (i : nat) (a : Z) (j : nat) (b : Z) : Scalar :=
  let xx := x in
  let xx := alter (λ v, v + sc a * epsH) i xx in
  let xx := alter (λ v, v + sc b * epsH) j xx in
  value xx.

(** Body of the double loop of the branch [accuracy != 0]. *)
Definition fh1_entry (x : Vector) (i j : nat) : Scalar :=
  let term_1 := 0 in
  let term_1 := term_1 + probe x i 1 j (-2) in
  let term_1 := term_1 + probe x i 2 j (-1) in
  let term_1 := term_1 + probe x i (-2) j 1 in
  let term_1 := term_1 + probe x i (-1) j 2 in
  let term_2 := 0 in
  let term_2 := term_2 + probe x i (-1) j (-2) in
  let term_2 := term_2 + probe x i (-2) j (-1) in
  let term_2 := term_2 + probe x i 1 j 2 in
  let term_2 := term_2 + probe x i 2 j 1 in
  let term_3 := 0 in
  let term_3 := term_3 + probe x i 2 j (-2) in
  let term_3 := term_3 + probe x i (-2) j 2 in
  let term_3 := term_3 - probe x i (-2) j (-2) in
  let term_3 := term_3 - probe x i 2 j 2 in
  let term_4 := 0 in
  let term_4 := term_4 + probe x i (-1) j (-1) in
  let term_4 := term_4 + probe x i 1 j 1 in
  let term_4 := term_4 - probe x i 1 j (-1) in
  let term_4 := term_4 - probe x i (-1) j 1 in
  (sc (-63) * term_1 + sc 63 * term_2 + sc 44 * term_3 + sc 74 * term_4)
    / (sc 600 * epsH * epsH).

Definition fh_entry (x : Vector) (accuracy : Z) (i j : nat) : Scalar :=
  if decide (accuracy = 0%Z) then fh0_entry x i j else fh1_entry x i j.

(** [finiteHessian(x, hessian, accuracy)]: [hessian] is the content of the
    out-parameter at the call, the result is its content at the return. *)
Definition finiteHessian (x : Vector) (hessian : Matrix) (accuracy : Z)
  : result Matrix :=
  foldlM (λ hessian i,
    foldlM (λ hessian j, mset hessian i j (fh_entry x accuracy i j))
           hessian (seq 0 (length x)))
    hessian (seq 0 (length x)).

End WithValue.

End FiniteDiff.

(** ** problem.h: class Problem *)

(** A concrete problem: the pure virtual [value], and the overrides of the
    virtual [gradient] and [hessian] where the subclass has them.  An
    override assigns the whole out-parameter ([grad = ...]), so it is a
    function of [x]. *)
Record Problem : Type := {
  value : Vector → Scalar;
  gradient_override : option (Vector → Vector);
  hessian_override : option (Vector → Matrix);
}.

(** [Vector grad(n)], [SquareMatrixType::Zero(n, n)]: storage of the given
    size.  The content of [grad(n)] is not initialised by Eigen; every
    entry is written before it is read. *)
Definition vzero (n : nat) : Vector := replicate n 0.
Definition mzero (n : nat) : Matrix := replicate n (vzero n).

Definition finiteGradient (p : Problem) := FiniteDiff.finiteGradient (value p).
Definition finiteHessian (p : Problem) := FiniteDiff.finiteHessian (value p).

(** [virtual void gradient(x, grad) { finiteGradient(x, grad); }] *)
Definition gradient (p : Problem) (x : Vector) : result Vector :=
  match gradient_override p with
  | Some g => Ok (g x)
  | None => finiteGradient p x 0
  end.

(** [virtual void hessian(x, hessian) { finiteHessian(x, hessian); }] *)
Definition hessian (p : Problem) (x : Vector) (h : Matrix) : result Matrix :=
  match hessian_override p with
  | Some H => Ok (H x)
  | None => finiteHessian p x h 0
  end.

(** [std::max(a, b)] is [(a < b) ? b : a]. *)
Definition smax (a b : Scalar) : Scalar := if decide (a < b) then b else a.
(** [fabs]. *)
Definition fabs (a : Scalar) : Scalar := if decide (a < 0) then - a else a.

(** The loop of [checkGradient], which leaves with [false] at the first
    coordinate out of tolerance. *)
Fixpoint checkGradient_loop (actual_grad expected_grad : Vector)
    (ds : list nat) : result bool :=
  match ds with
  | [] => Ok true
  | d :: ds' =>
      a ← vget actual_grad d;
      e ← vget expected_grad d;
      let scale := smax (smax (fabs a) (fabs e)) 1 in
      if decide (dec 1 100 * scale < fabs (a - e)) then Ok false
      else checkGradient_loop actual_grad expected_grad ds'
  end.

Definition checkGradient (p : Problem) (x : Vector) (accuracy : Z)
  : result bool :=
  let D := length x in
  actual_grad ← gradient p x;
  expected_grad ← finiteGradient p x accuracy;
  checkGradient_loop actual_grad expected_grad (seq 0 D).

(** The loops of [checkHessian]. *)
Fixpoint checkHessian_row (actual_hessian expected_hessian : Matrix)
    (d : nat) (es : list nat) : result bool :=
  match es with
  | [] => Ok true
  | e :: es' =>
      a ← mget actual_hessian d e;
      n ← mget expected_hessian d e;
      let scale := smax (smax (fabs a) (fabs n)) 1 in
      if decide (dec 1 10 * scale < fabs (a - n)) then Ok false
      else checkHessian_row actual_hessian expected_hessian d es'
  end.

Fixpoint checkHessian_loop (actual_hessian expected_hessian : Matrix)
    (D : nat) (ds : list nat) : result bool :=
  match ds with
  | [] => Ok true
  | d :: ds' =>
      b ← checkHessian_row actual_hessian expected_hessian d (seq 0 D);
      if (b : bool) then checkHessian_loop actual_hessian expected_hessian D ds'
      else Ok false
  end.

Definition checkHessian (p : Problem) (x : Vector) (accuracy : Z)
  : result bool :=
  let D := length x in
  let actual_hessian := mzero D in
  let expected_hessian := mzero D in
  actual_hessian ← hessian p x actual_hessian;
  expected_hessian ← finiteHessian p x expected_hessian accuracy;
  checkHessian_loop actual_hessian expected_hessian D (seq 0 D).

(** ** linesearch/armijo.h *)

Module Armijo.

Definition c : Scalar := dec 2 10.
Definition rho : Scalar := dec 9 10.

(** [while(f > f_in + alpha * Cache) { alpha *= rho;
           f = objFunc.value(x + alpha * searchDir); }  return alpha;]
    The source has no bound on the iterations; [fuel] bounds them here. *)
Fixpoint backtrack (fuel : nat) (value : Vector → Scalar)
    (x searchDir : Vector) (f_in Cache : Scalar) (alpha f : Scalar)
    {struct fuel} : result Scalar :=
  if decide (f_in + alpha * Cache < f) then
    match fuel with
    | O => OutOfFuel
    | S fuel' =>
        let alpha := alpha * rho in
        let f := value (vadd x (vscale alpha searchDir)) in
        backtrack fuel' value x searchDir f_in Cache alpha f
    end
  else Ok alpha.

(** [Armijo<ProblemType, Ord>::linesearch(x, searchDir, objFunc, alpha_init)] *)
Definition linesearch (fuel : nat) (x searchDir : Vector)
    (objFunc : Problem) (alpha_init : Scalar) : result Scalar :=
  let alpha := alpha_init in
  let f := value objFunc (vadd x (vscale alpha searchDir)) in
  let f_in := value objFunc x in
  grad ← gradient objFunc x;
  let Cache := c * dot grad searchDir in
  backtrack fuel (value objFunc) x searchDir f_in Cache alpha f.

End Armijo.

Module Armijo2.

Definition c : Scalar := dec 2 10.
Definition rho : Scalar := dec 9 10.

(** [Armijo<ProblemType, 2>::linesearch(x, searchDir, objFunc)] *)
Definition linesearch (fuel : nat) (x searchDir : Vector)
    (objFunc : Problem) : result Scalar :=
  let alpha := 1 in
  let f := value objFunc (vadd x (vscale alpha searchDir)) in
  let f_in := value objFunc x in
  hessian ← hessian objFunc x (mzero (length x));
  grad ← gradient objFunc x;
  let Cache := c * dot grad searchDir
               + dec 5 10 * c * c * dot searchDir (matvec hessian searchDir) in
  Armijo.backtrack fuel (value objFunc) x searchDir f_in Cache alpha f.

End Armijo2.

(** ** boundedproblem.h *)

Module Bounded.

(** The bounds hold IEEE infinities, so their scalars are extended. *)
Inductive BScalar : Type :=
  | NegInfinity
  | Finite (q : Scalar)
  | PosInfinity.

(** [Eigen::Dynamic] *)
Definition Dynamic : Z := (-1)%Z.

(** A default-constructed [TVector]: [Dim_] entries that Eigen leaves
    uninitialised ([junk] is whatever the memory holds), no entry at all
    for [Dim_ = Eigen::Dynamic]. *)
Definition TVector_default (Dim_ : Z) (junk : nat → BScalar) : list BScalar :=
  if decide (Dim_ = Dynamic) then [] else junk <$> seq 0 (Z.to_nat Dim_).

(** [v.setConstant(c)] *)
Definition setConstant (c : BScalar) (v : list BScalar) : list BScalar :=
  (λ _, c) <$> v.

Record BoundedProblem : Type := {
  hasLowerBound_ : bool;
  hasUpperBound_ : bool;
  m_lowerBound : list BScalar;
  m_upperBound : list BScalar;
}.

(** [BoundedProblem() : Superclass() { m_lowerBound.setConstant(-inf);
     m_upperBound.setConstant(inf); }] *)
Definition BoundedProblem_default (Dim_ : Z) (junk_l junk_u : nat → BScalar)
  : BoundedProblem :=
  let m_lowerBound := TVector_default Dim_ junk_l in
  let m_upperBound := TVector_default Dim_ junk_u in
  {| hasLowerBound_ := false;
     hasUpperBound_ := false;
     m_lowerBound := setConstant NegInfinity m_lowerBound;
     m_upperBound := setConstant PosInfinity m_upperBound |}.

Definition lowerBound (p : BoundedProblem) : list BScalar := m_lowerBound p.
Definition upperBound (p : BoundedProblem) : list BScalar := m_upperBound p.

Definition setLowerBound (lb : list BScalar) (p : BoundedProblem)
  : BoundedProblem :=
  {| hasLowerBound_ := hasLowerBound_ p;
     hasUpperBound_ := hasUpperBound_ p;
     m_lowerBound := lb;
     m_upperBound := m_upperBound p |}.

Definition setUpperBound (ub : list BScalar) (p : BoundedProblem)
  : BoundedProblem :=
  {| hasLowerBound_ := hasLowerBound_ p;
     hasUpperBound_ := hasUpperBound_ p;
     m_lowerBound := m_lowerBound p;
     m_upperBound := ub |}.

Definition setBoxConstraint (lb ub : list BScalar) (p : BoundedProblem)
  : BoundedProblem :=
  setUpperBound ub (setLowerBound lb p).

End Bounded.

(** ** Calls by reference

    The C++ functions take [x] and the search direction by const
    reference and deliver vectors and matrices through reference
    out-parameters.  Here the objects of the caller live in a store, by
    address; a function takes addresses and returns the store at its
    return.  Local objects ([actual_grad], [grad], ...) are allocated at a
    fresh address and destroyed at the return. *)

Module Ref.

Inductive object : Type :=
  | VectorObj (v : Vector)
  | MatrixObj (m : Matrix).

Abbreviation store := (gmap nat object).

Definition load_vector (σ : store) (l : nat) : result Vector :=
  match σ !! l with
  | Some (VectorObj v) => Ok v
  | _ => Undefined
  end.

Definition load_matrix (σ : store) (l : nat) : result Matrix :=
  match σ !! l with
  | Some (MatrixObj m) => Ok m
  | _ => Undefined
  end.

(** Address of a new local object. *)
Definition alloc (σ : store) : nat := fresh (dom σ).

(** [finiteGradient(const VectorType &x, VectorType &grad, int accuracy)]:
    [x] is read in the loops, [grad = finiteDiff] is the last
    statement. *)
Definition finiteGradient (p : Problem) (x grad : nat) (accuracy : Z)
    (σ : store) : result store :=
  xv ← load_vector σ x;
  _ ← load_vector σ grad;
  finiteDiff ← FiniteDiff.finiteGradient (value p) xv accuracy;
  Ok (<[grad := VectorObj finiteDiff]> σ).

(** [finiteHessian(const VectorType &x, SquareMatrixType &hessian,
    int accuracy)] *)
Definition finiteHessian (p : Problem) (x hessian : nat) (accuracy : Z)
    (σ : store) : result store :=
  xv ← load_vector σ x;
  h ← load_matrix σ hessian;
  h ← FiniteDiff.finiteHessian (value p) xv h accuracy;
  Ok (<[hessian := MatrixObj h]> σ).

(** The virtual [gradient(x, grad)] and [hessian(x, hessian)]. *)
Definition gradient (p : Problem) (x grad : nat) (σ : store) : result store :=
  match gradient_override p with
  | Some g =>
      xv ← load_vector σ x;
      _ ← load_vector σ grad;
      Ok (<[grad := VectorObj (g xv)]> σ)
  | None => finiteGradient p x grad 0 σ
  end.

Definition hessian (p : Problem) (x hessian : nat) (σ : store) : result store :=
  match hessian_override p with
  | Some H =>
      xv ← load_vector σ x;
      _ ← load_matrix σ hessian;
      Ok (<[hessian := MatrixObj (H xv)]> σ)
  | None => finiteHessian p x hessian 0 σ
  end.

(** [bool checkGradient(const VectorType &x, int accuracy)] *)
Definition checkGradient (p : Problem) (x : nat) (accuracy : Z) (σ : store)
  : result (bool * store) :=
  xv ← load_vector σ x;
  let D := length xv in
  let actual_grad := alloc σ in
  let σ := <[actual_grad := VectorObj (vzero D)]> σ in
  let expected_grad := alloc σ in
  let σ := <[expected_grad := VectorObj (vzero D)]> σ in
  σ ← gradient p x actual_grad σ;
  σ ← finiteGradient p x expected_grad accuracy σ;
  av ← load_vector σ actual_grad;
  ev ← load_vector σ expected_grad;
  b ← checkGradient_loop av ev (seq 0 D);
  Ok (b, delete actual_grad (delete expected_grad σ)).

(** [bool checkHessian(const VectorType &x, int accuracy)] *)
Definition checkHessian (p : Problem) (x : nat) (accuracy : Z) (σ : store)
  : result (bool * store) :=
  xv ← load_vector σ x;
  let D := length xv in
  let actual_hessian := alloc σ in
  let σ := <[actual_hessian := MatrixObj (mzero D)]> σ in
  let expected_hessian := alloc σ in
  let σ := <[expected_hessian := MatrixObj (mzero D)]> σ in
  σ ← hessian p x actual_hessian σ;
  σ ← finiteHessian p x expected_hessian accuracy σ;
  am ← load_matrix σ actual_hessian;
  em ← load_matrix σ expected_hessian;
  b ← checkHessian_loop am em D (seq 0 D);
  Ok (b, delete actual_hessian (delete expected_hessian σ)).

(** [Armijo<ProblemType, Ord>::linesearch(const VectorType &x,
    const VectorType &searchDir, ProblemType &objFunc, alpha_init)] *)
Definition linesearch (fuel : nat) (x searchDir : nat) (objFunc : Problem)
    (alpha_init : Scalar) (σ : store) : result (Scalar * store) :=
  xv ← load_vector σ x;
  dv ← load_vector σ searchDir;
  let alpha := alpha_init in
  let f := value objFunc (vadd xv (vscale alpha dv)) in
  let f_in := value objFunc xv in
  let grad := alloc σ in
  let σ := <[grad := VectorObj (vzero (length xv))]> σ in
  σ ← gradient objFunc x grad σ;
  gv ← load_vector σ grad;
  let Cache := Armijo.c * dot gv dv in
  alpha ← Armijo.backtrack fuel (value objFunc) xv dv f_in Cache alpha f;
  Ok (alpha, delete grad σ).

(** [Armijo<ProblemType, 2>::linesearch(const VectorType &x,
    const VectorType &searchDir, ProblemType &objFunc)] *)
Definition linesearch2 (fuel : nat) (x searchDir : nat) (objFunc : Problem)
    (σ : store) : result (Scalar * store) :=
  xv ← load_vector σ x;
  dv ← load_vector σ searchDir;
  let alpha := 1 in
  let f := value objFunc (vadd xv (vscale alpha dv)) in
  let f_in := value objFunc xv in
  let hess := alloc σ in
  let σ := <[hess := MatrixObj (mzero (length xv))]> σ in
  σ ← hessian objFunc x hess σ;
  let grad := alloc σ in
  let σ := <[grad := VectorObj (vzero (length xv))]> σ in
  σ ← gradient objFunc x grad σ;
  hm ← load_matrix σ hess;
  gv ← load_vector σ grad;
  let Cache := Armijo2.c * dot gv dv
               + dec 5 10 * Armijo2.c * Armijo2.c * dot dv (matvec hm dv) in
  alpha ← Armijo.backtrack fuel (value objFunc) xv dv f_in Cache alpha f;
  Ok (alpha, delete hess (delete grad σ)).

End Ref.

(** ** Specification-side notions *)

Module FiniteDiffSpec.
Import FiniteDiff.

(** [x] moved by [delta] along coordinate [d]. *)
Definition perturb (x : Vector) (d : nat) (delta : Scalar) : Vector :=
  alter (λ v, v + delta) d x.

(** The weighted sum of the values at the stencil points: weights [ws],
    offsets [os] in units of [eps]. *)
Definition stencil_sum (value : Vector → Scalar) (x : Vector) (d : nat)
    (ws os : list Scalar) : Scalar :=
  foldr Qcplus 0 (zip_with (λ w o, w * value (perturb x d (o * eps))) ws os).

(** The finite-difference quotient along coordinate [d] as the
    specification words it. *)
Definition stencil_quotient (value : Vector → Scalar) (x : Vector) (d : nat)
    (ws os : list Scalar) (den : Scalar) : Scalar :=
  stencil_sum value x d ws os / (den * eps).

End FiniteDiffSpec.

(** ** Sample problems *)

Definition sample_value (x : Vector) : Scalar :=
  match x with
  | [u; v] => u * u + sc 3 * v
  | _ => 0
  end.

(** The larger of two scalars, and the tolerance test of the derivative
    checkers as the specification words it:
    [|analytic - numeric| <= rel * max(|analytic|, |numeric|, 1)]. *)
Definition Qcmax (a b : Scalar) : Scalar := if decide (a ≤ b) then b else a.
Definition within_tolerance (rel analytic numeric : Scalar) : Prop :=
  Qcabs.Qcabs (analytic - numeric)
  ≤ rel * Qcmax (Qcmax (Qcabs.Qcabs analytic) (Qcabs.Qcabs numeric)) 1.

(** A problem with no override, and one with an analytic gradient. *)
Definition sample_problem : Problem :=
  {| value := sample_value; gradient_override := None;
     hessian_override := None |}.
Definition sample_analytic : Problem :=
  {| value := sample_value;
     gradient_override := Some (λ x, match x with
                                     | [u; v] => [sc 2 * u; sc 3]
                                     | _ => []
                                     end);
     hessian_override := None |}.
(** The same objective with a wrong analytic gradient. *)
Definition sample_wrong : Problem :=
  {| value := sample_value;
     gradient_override := Some (λ x, match x with
                                     | [u; v] => [sc 2 * u; sc 4]
                                     | _ => []
                                     end);
     hessian_override := None |}.

(** The Armijo condition at step [alpha], for the model decrease [slope]
    per unit step, and the step tried after [k] shrinks. *)
Module ArmijoSpec.
Definition sufficient_decrease (value : Vector → Scalar) (x d : Vector)
    (slope alpha : Scalar) : Prop :=
  value (vadd x (vscale alpha d)) ≤ value x + alpha * slope.
Definition trial (alpha_init : Scalar) (k : nat) : Scalar :=
  alpha_init * Armijo.rho ^ k.
(** The loop entered at the step tried after [k0] shrinks. *)
Definition run_from (value : Vector → Scalar) (x d : Vector)
    (Cache alpha_init : Scalar) (fuel k0 : nat) : result Scalar :=
  Armijo.backtrack fuel value x d (value x) Cache
    (trial alpha_init k0)
    (value (vadd x (vscale (trial alpha_init k0) d))).
End ArmijoSpec.

(** [m] has [n] rows of [n] entries. *)
Definition square (n : nat) (m : Matrix) : Prop :=
  length m = n ∧ ∀ i row, m !! i = Some row → length row = n.

(** The number of entries of a vector of compile-time size [Dim_]. *)
Definition static_size (Dim_ : Z) : nat :=
  if decide (Dim_ = Bounded.Dynamic) then 0%nat else Z.to_nat Dim_.

(** ** Quadratic objectives *)

(** [value(x) = 0.5 * x^T A x - b^T x] *)
Definition quadratic (A : Matrix) (b : Vector) (x : Vector) : Scalar :=
  dec 1 2 * dot x (matvec A x) - dot b x.

(** Its analytic gradient [A x - b] for a symmetric [A]. *)
Definition quadratic_gradient (A : Matrix) (b : Vector) (x : Vector) : Vector :=
  zip_with Qcminus (matvec A x) b.

Definition symmetric (A : Matrix) : Prop :=
  ∀ i j, mget A i j = mget A j i.

Definition positive_definite (A : Matrix) : Prop :=
  ∀ v, length v = length A → v ≠ vzero (length A) → 0 < dot v (matvec A v).

(** Entry [k] of a vector, [0] out of its range; the unit vector [e_i] of
    size [n]; the sum of [f 0 .. f (n-1)]. *)
Definition entry (v : Vector) (k : nat) : Scalar := default 0 (v !! k).
Definition unit (n i : nat) : Vector := <[i := 1]> (vzero n).
Fixpoint sumf (f : nat → Scalar) (n : nat) : Scalar :=
  match n with
  | O => 0
  | S n' => f 0%nat + sumf (λ k, f (S k)) n'
  end.

(** [p] is the quadratic bowl of [A] and [b] in dimension [n]: its value
    is the quadratic form of a symmetric positive definite [A], and the
    derivatives it overrides, if any, are the analytic ones. *)
Record quadratic_bowl (p : Problem) (A : Matrix) (b : Vector) (n : nat)
  : Prop := {
  bowl_square : square n A;
  bowl_symmetric : symmetric A;
  bowl_posdef : positive_definite A;
  bowl_b : length b = n;
  bowl_value : value p = quadratic A b;
  bowl_gradient : ∀ g, gradient_override p = Some g →
                  ∀ x, length x = n → g x = quadratic_gradient A b x;
  bowl_hessian : ∀ H, hessian_override p = Some H →
                 ∀ x, length x = n → H x = A;
}.

(** [value(x) = 0.5 * x^2] in one dimension, with no override. *)
Definition bowl1 : Problem :=
  {| value := quadratic [[sc 1]] [sc 0];
     gradient_override := None;
     hessian_override := None |}.

(** A symmetric matrix and a right-hand side in two dimensions. *)
Definition sample_A : Matrix := [[sc 2; sc 1]; [sc 1; sc 3]].
Definition sample_b : Vector := [sc 1; sc (-1)].

(** A caller's store with a point and a direction. *)
Definition sample_store : Ref.store :=
  <[1%nat := Ref.VectorObj [sc (-1); sc 0]]>
    (<[0%nat := Ref.VectorObj [sc 1; sc 2]]> ∅).

(** * Further code

    The rest of [problem.h] and [boundedproblem.h], and the problem classes
    of the example programs. *)

(** ** problem.h: the bound members of class Problem *)

Module ProblemBounds.

(** The bound members of [Problem]; [V] is [VectorType]. *)
Record state (V : Type) : Type := {
  hasLowerBound_ : bool;
  hasUpperBound_ : bool;
  lowerBound_ : V;
  upperBound_ : V;
}.
Arguments hasLowerBound_ {V} _.
Arguments hasUpperBound_ {V} _.
Arguments lowerBound_ {V} _.
Arguments upperBound_ {V} _.

Section WithVector.
Context {V : Type}.

(** [Problem() {}]: the flags take their default member initialisers, the
    vectors are default-constructed ([junk_l], [junk_u] is what they
    hold). *)
Definition Problem_default (junk_l junk_u : V) : state V :=
  {| hasLowerBound_ := false; hasUpperBound_ := false;
     lowerBound_ := junk_l; upperBound_ := junk_u |}.

Definition setLowerBound (lb : V) (st : state V) : state V :=
  {| hasLowerBound_ := true; hasUpperBound_ := hasUpperBound_ st;
     lowerBound_ := lb; upperBound_ := upperBound_ st |}.

Definition setUpperBound (ub : V) (st : state V) : state V :=
  {| hasLowerBound_ := hasLowerBound_ st; hasUpperBound_ := true;
     lowerBound_ := lowerBound_ st; upperBound_ := ub |}.

Definition setBoxConstraint (lb ub : V) (st : state V) : state V :=
  setUpperBound ub (setLowerBound lb st).

Definition hasLowerBound (st : state V) : bool := hasLowerBound_ st.
Definition hasUpperBound (st : state V) : bool := hasUpperBound_ st.
Definition lowerBound (st : state V) : V := lowerBound_ st.
Definition upperBound (st : state V) : V := upperBound_ st.

End WithVector.
End ProblemBounds.

(** A call of one of the three setters, and a sequence of such calls. *)
Inductive bound_call (V : Type) : Type :=
  | SetLowerBound (lb : V)
  | SetUpperBound (ub : V)
  | SetBoxConstraint (lb ub : V).
Arguments SetLowerBound {V} lb.
Arguments SetUpperBound {V} ub.
Arguments SetBoxConstraint {V} lb ub.

(** The last lower (upper) bound that a sequence of calls sets, if any. *)
Definition lower_of {V} (c : bound_call V) : option V :=
  match c with
  | SetLowerBound lb | SetBoxConstraint lb _ => Some lb
  | SetUpperBound _ => None
  end.
Definition upper_of {V} (c : bound_call V) : option V :=
  match c with
  | SetUpperBound ub | SetBoxConstraint _ ub => Some ub
  | SetLowerBound _ => None
  end.
Definition last_set {V} (f : bound_call V → option V) (cs : list (bound_call V))
  : option V :=
  foldl (λ acc c, match f c with Some b => Some b | None => acc end) None cs.

Definition problem_call {V} (st : ProblemBounds.state V) (c : bound_call V)
  : ProblemBounds.state V :=
  match c with
  | SetLowerBound lb => ProblemBounds.setLowerBound lb st
  | SetUpperBound ub => ProblemBounds.setUpperBound ub st
  | SetBoxConstraint lb ub => ProblemBounds.setBoxConstraint lb ub st
  end.

Definition bounded_call (st : Bounded.BoundedProblem)
    (c : bound_call (list Bounded.BScalar)) : Bounded.BoundedProblem :=
  match c with
  | SetLowerBound lb => Bounded.setLowerBound lb st
  | SetUpperBound ub => Bounded.setUpperBound ub st
  | SetBoxConstraint lb ub => Bounded.setBoxConstraint lb ub st
  end.

(** [BoundedProblem(const TVector &l, const TVector &u)] *)
Definition BoundedProblem_of (l u : list Bounded.BScalar) : Bounded.BoundedProblem :=
  {| Bounded.hasLowerBound_ := false; Bounded.hasUpperBound_ := false;
     Bounded.m_lowerBound := l; Bounded.m_upperBound := u |}.

(** ** examples: linearregression.cpp, nonnegls.cpp *)

Module Examples.

(** Column [k] of [X]; [X.transpose()] and [A * B] for matrices with
    [cols] columns; [M * a]; [x - y]; [v.squaredNorm()]. *)
Definition col (X : Matrix) (k : nat) : Vector := (λ row, entry row k) <$> X.
Definition transpose (cols : nat) (X : Matrix) : Matrix := col X <$> seq 0 cols.
Definition matmul (cols : nat) (A B : Matrix) : Matrix :=
  (λ row, (λ k, dot row (col B k)) <$> seq 0 cols) <$> A.
Definition mscale (A : Matrix) (a : Scalar) : Matrix :=
  (λ row : Vector, (λ v, v * a) <$> row) <$> A.
Definition vsub (x y : Vector) : Vector := zip_with Qcminus x y.
Definition squaredNorm (v : Vector) : Scalar := dot v v.

(** [class LinearRegression]: [X] has [cols] columns. *)
Definition LinearRegression (cols : nat) (X_ : Matrix) (y_ : Vector) : Problem :=
  let X := X_ in
  let y := y_ in
  let XX := matmul cols (transpose cols X_) X_ in
  {| value := λ beta, dec 5 10 * squaredNorm (vsub (matvec X beta) y);
     gradient_override :=
       Some (λ beta, vsub (matvec XX beta) (matvec (transpose cols X) y));
     hessian_override := None |}.

(** [class NonNegativeLeastSquares] *)
Definition NonNegativeLeastSquares (cols : nat) (X_ : Matrix) (y_ : Vector)
  : Problem :=
  let X := X_ in
  let y := y_ in
  {| value := λ beta,
       dot (vsub (matvec X beta) y) (vsub (matvec X beta) y);
     gradient_override :=
       Some (λ beta, matvec (mscale (transpose cols X) (sc 2))
                       (vsub (matvec X beta) y));
     hessian_override := None |}.

End Examples.

(** [X] has [m] rows of [n] entries. *)
Definition rect (m n : nat) (X : Matrix) : Prop :=
  length X = m ∧ ∀ i row, X !! i = Some row → length row = n.

(** ** Polynomials and the moments of a stencil *)

(** [c0 + c1*t + c2*t^2 + ...] *)
Definition polyval (cs : list Scalar) (t : Scalar) : Scalar :=
  foldr (λ c acc, c + t * acc) 0 cs.

(** The first [n] moments [sum_s w_s * o_s^k] of a stencil. *)
Fixpoint moments (ws os : list Scalar) (n : nat) : list Scalar :=
  match n with
  | O => []
  | S n' => foldr Qcplus 0 ws :: moments (zip_with Qcmult ws os) os n'
  end.

(** Proves an equation between scalars built from literals with the
    field of [Q]. *)
Ltac qc_field :=
  apply Qc_is_canon;
  unfold sc, dec, Qc_of_Z; qc_to_q; cbn [this]; unfold inject_Z; field.

(** ** Further sample inputs *)

(** Three data points for a line. *)
Definition sample_X : Matrix := [[sc 1; sc 0]; [sc 1; sc 1]; [sc 1; sc 2]].
Definition sample_y : Vector := [sc 1; sc 2; sc 2].

(** [value(x) = 0.5 * x^2] with its analytic gradient and Hessian. *)
Definition bowl1_analytic : Problem :=
  {| value := quadratic [[sc 1]] [sc 0];
     gradient_override := Some (quadratic_gradient [[sc 1]] [sc 0]);
     hessian_override := Some (λ _, [[sc 1]]) |}.

(** The quadratic of [sample_A] and [sample_b], with no override. *)
Definition sample_quadratic : Problem :=
  {| value := quadratic sample_A sample_b;
     gradient_override := None;
     hessian_override := None |}.

(** ** problem.h: finiteHessian with Scalar = double

    [Scalar] is here the type of IEEE 754 binary64 numbers, with every
    operation rounded to nearest (ties to even) as the hardware does it for
    a C++ [double]: the primitive floats of Rocq.  The definitions follow
    the same lines of [finiteHessian] as those of [FiniteDiff] do, with the
    operations of the source in the order of the source. *)

Module Double.
Local Open Scope float_scope.

Definition Scalar : Type := float.
Definition Vector : Type := list Scalar.
Definition Matrix : Type := list Vector.

(** [x.dot(y)], [m * x], [m(i, j)] read and write, [Zero(n, n)]. *)
Fixpoint dot (x y : Vector) : Scalar :=
  match x, y with
  | a :: x', b :: y' => a * b + dot x' y'
  | _, _ => 0
  end.
Definition matvec (m : Matrix) (x : Vector) : Vector := (λ row, dot row x) <$> m.
Definition mget (m : Matrix) (i j : nat) : result Scalar :=
  match m !! i with
  | Some row => match row !! j with Some a => Ok a | None => Undefined end
  | None => Undefined
  end.
Definition mset (m : Matrix) (i j : nat) (v : Scalar) : result Matrix :=
  match m !! i with
  | Some row =>
      if decide (j < length row)%nat then Ok (<[i := <[j := v]> row]> m)
      else Undefined
  | None => Undefined
  end.
Definition mzero (n : nat) : Matrix := replicate n (replicate n 0).

Section WithValue.
Variable value : Vector → Scalar.

(** [const Scalar eps = std::numeric_limits<Scalar>::epsilon()*10e7;] *)
Definition machine_epsilon : Scalar := 0x1p-52.
Definition eps : Scalar := machine_epsilon * 10e7.

(** Body of the double loop of the branch [accuracy == 0]. *)
Definition fh0_entry (x : Vector) (i j : nat) : Scalar :=
  let xx := x in
  let f4 := value xx in
  let xx := alter (λ v, v + eps) i xx in
  let xx := alter (λ v, v + eps) j xx in
  let f1 := value xx in
  let xx := alter (λ v, v - eps) j xx in
  let f2 := value xx in
  let xx := alter (λ v, v + eps) j xx in
  let xx := alter (λ v, v - eps) i xx in
  let f3 := value xx in
  (f1 - f2 - f3 + f4) / (eps * eps).

(** [xx = x.eval(); xx[i] += a*eps; xx[j] += b*eps; ... value(xx)] *)
Definition probe (x : Vector) (i : nat) (a : Scalar) (j : nat) (b : Scalar)
  : Scalar :=
  let xx := x in
  let xx := alter (λ v, v + a * eps) i xx in
  let xx := alter (λ v, v + b * eps) j xx in
  value xx.

(** Body of the double loop of the branch [accuracy != 0]. *)
Definition fh1_entry (x : Vector) (i j : nat) : Scalar :=
  let term_1 := 0 in
  let term_1 := term_1 + probe x i 1 j (-2) in
  let term_1 := term_1 + probe x i 2 j (-1) in
  let term_1 := term_1 + probe x i (-2) j 1 in
  let term_1 := term_1 + probe x i (-1) j 2 in
  let term_2 := 0 in
  let term_2 := term_2 + probe x i (-1) j (-2) in
  let term_2 := term_2 + probe x i (-2) j (-1) in
  let term_2 := term_2 + probe x i 1 j 2 in
  let term_2 := term_2 + probe x i 2 j 1 in
  let term_3 := 0 in
  let term_3 := term_3 + probe x i 2 j (-2) in
  let term_3 := term_3 + probe x i (-2) j 2 in
  let term_3 := term_3 - probe x i (-2) j (-2) in
  let term_3 := term_3 - probe x i 2 j 2 in
  let term_4 := 0 in
  let term_4 := term_4 + probe x i (-1) j (-1) in
  let term_4 := term_4 + probe x i 1 j 1 in
  let term_4 := term_4 - probe x i 1 j (-1) in
  let term_4 := term_4 - probe x i (-1) j 1 in
  (-63 * term_1 + 63 * term_2 + 44 * term_3 + 74 * term_4)
    / (600.0 * eps * eps).

Definition fh_entry (x : Vector) (accuracy : Z) (i j : nat) : Scalar :=
  if decide (accuracy = 0%Z) then fh0_entry x i j else fh1_entry x i j.

(** [finiteHessian(x, hessian, accuracy)] *)
Definition finiteHessian (x : Vector) (hessian : Matrix) (accuracy : Z)
  : result Matrix :=
  foldlM (λ hessian i,
    foldlM (λ hessian j, mset hessian i j (fh_entry x accuracy i j))
           hessian (seq 0 (length x)))
    hessian (seq 0 (length x)).

End WithValue.

(** [value(x) = 0.5 * x^T A x - b^T x] computed in doubles. *)
Definition quadratic (A : Matrix) (b : Vector) (x : Vector) : Scalar :=
  0.5 * dot x (matvec A x) - dot b x.

(** [sample_A], [sample_b] and the point [(1, 2)] as doubles; the
    tolerance [1e-4]; the rounding unit [2^-49] of a double between 8 and
    16, divided by [eps * eps]. *)
Definition sample_A : Matrix := [[2; 1]; [1; 3]].
Definition sample_b : Vector := [1; -1].
Definition sample_x : Vector := [1; 2].
#[warnings="-inexact-float"]
Definition tolerance : Scalar := 1e-4.

(** [fabs(v - a) > tol] *)
Definition outside (tol a v : Scalar) : bool := tol <? abs (v - a).

End Double.

(** * Properties *)

(** ** Loops *)

Section Loops.
Context {A B : Type}.
Implicit Types (f : B → A → result B) (l : list A).

(** An invariant indexed by the number of iterations done carries over a
    loop each of whose iterations returns. *)
Lemma foldlM_inv (P : nat → B → Prop) f l b :
  P 0%nat b →
  (∀ k a b0, l !! k = Some a → P k b0 → ∃ b1, f b0 a = Ok b1 ∧ P (S k) b1) →
  ∃ b', foldlM f b l = Ok b' ∧ P (length l) b'.
Proof.
  revert P b. induction l as [|a l IH]; intros P b H0 Hstep; simpl.
  - eauto.
  - destruct (Hstep 0%nat a b eq_refl H0) as (b1 & -> & H1). simpl.
    apply (IH (λ k, P (S k))); [done|].
    intros k a' b0 Hk. apply (Hstep (S k)). done.
Qed.
End Loops.

(** A decidable property that holds somewhere on [nat] has a least index. *)
Lemma least_index (P : nat → Prop) (k : nat) :
  (∀ j, Decision (P j)) → P k →
  ∃ k0, P k0 ∧ ∀ j, (j < k0)%nat → ¬ P j.
Proof.
  intros Hdec Hk.
  assert (∀ n, (∀ j, (j < n)%nat → ¬ P j)
               ∨ ∃ k0, P k0 ∧ ∀ j, (j < k0)%nat → ¬ P j) as Hscan.
  { induction n as [|n [Hnone|Hsome]]; [left; intros; lia| |by right].
    destruct (Hdec n) as [Hn|Hn].
    - right. exists n. auto.
    - left. intros j Hj. destruct (decide (j = n)) as [->|]; [done|].
      apply Hnone. lia. }
  destruct (Hscan (S k)) as [Hnone|Hsome]; [|done].
  destruct (Hnone k); [lia|done].
Qed.

(** ** Scalars *)

Lemma sc_neq_0 z : z ≠ 0%Z → sc z ≠ 0.
Proof.
  intros Hz Heq. apply Hz.
  apply (f_equal this) in Heq. by injection Heq.
Qed.

Lemma tbl_at_lookup {A} (t : list A) (n : nat) a :
  t !! n = Some a → tbl_at t (Z.of_nat n) = Ok a.
Proof.
  intros H. unfold tbl_at. rewrite decide_True by lia.
  by rewrite Nat2Z.id, H.
Qed.

(** ** The finite-difference gradient in closed form *)

Module FiniteDiffFacts.
Import FiniteDiff FiniteDiffSpec.

Section WithValue.
Variable value : Vector → Scalar.

Lemma foldr_plus_snoc (l : list Scalar) a :
  foldr Qcplus 0 (l ++ [a]) = foldr Qcplus 0 l + a.
Proof. induction l as [|b l IH]; simpl; [ring|]. rewrite IH. ring. Qed.

Lemma stencil_sum_snoc x d ws os k w o :
  ws !! k = Some w → os !! k = Some o →
  stencil_sum value x d (take (S k) ws) (take (S k) os)
  = stencil_sum value x d (take k ws) (take k os)
    + w * value (perturb x d (o * eps)).
Proof.
  intros Hw Ho. unfold stencil_sum.
  rewrite (take_S_r ws k w Hw), (take_S_r os k o Ho).
  rewrite zip_with_app by (rewrite !length_take; apply lookup_lt_Some in Hw, Ho; lia).
  simpl. apply foldr_plus_snoc.
Qed.

(** The loop over [s] adds the stencil sum to [finiteDiff[d]]. *)
Lemma fg_inner x (a : nat) d ws os fd v0 :
  coeff !! a = Some ws → coeff2 !! a = Some os →
  length ws = (2 * (a + 1))%nat → length os = (2 * (a + 1))%nat →
  fd !! d = Some v0 →
  ∃ fd', foldlM (fg_step value x (Z.of_nat a) d) fd
           (seqZ 0 (2 * (Z.of_nat a + 1))) = Ok fd'
         ∧ fd' = <[d := v0 + stencil_sum value x d ws os]> fd.
Proof.
  intros Hc Hc2 Hlw Hlo Hfd.
  set (n := (2 * (a + 1))%nat).
  destruct (foldlM_inv
    (λ k fd', fd' = <[d := v0 + stencil_sum value x d (take k ws) (take k os)]> fd)
    (fg_step value x (Z.of_nat a) d) (seqZ 0 (2 * (Z.of_nat a + 1))) fd)
    as (fd' & Hrun & Hfin).
  - unfold stencil_sum. simpl. rewrite Qcplus_0_r.
    symmetry. by apply list_insert_id.
  - intros k s fd0 Hk ->.
    apply lookup_seqZ in Hk as [-> Hk].
    assert (k < n)%nat as Hkn by (unfold n; lia).
    destruct (lookup_lt_is_Some_2 ws k) as [w Hw]; [lia|].
    destruct (lookup_lt_is_Some_2 os k) as [o Ho]; [lia|].
    eexists. split.
    + unfold fg_step. rewrite (tbl_at_lookup _ _ _ Hc2). simpl.
      replace (0 + Z.of_nat k)%Z with (Z.of_nat k) by lia.
      rewrite (tbl_at_lookup _ _ _ Ho). simpl.
      rewrite (tbl_at_lookup _ _ _ Hc). simpl.
      rewrite (tbl_at_lookup _ _ _ Hw). simpl. reflexivity.
    + rewrite (stencil_sum_snoc x d ws os k w o Hw Ho).
      apply list_eq; intros i.
      destruct (decide (i = d)) as [->|Hne].
      * rewrite list_lookup_alter_eq.
        apply lookup_lt_Some in Hfd.
        rewrite !list_lookup_insert_eq by done. simpl.
        f_equal. unfold perturb. ring.
      * rewrite list_lookup_alter_ne by done.
        by rewrite !list_lookup_insert_ne by done.
  - exists fd'. split; [done|].
    rewrite Hfin, length_seqZ.
    replace (Z.to_nat (2 * (Z.of_nat a + 1))) with n by (unfold n; lia).
    f_equal. f_equal. f_equal; apply take_ge; fold n in Hlw, Hlo; lia.
Qed.

(** One turn of the loop over [d] writes the quotient to
    [finiteDiff[d]] and leaves the other coordinates alone. *)
Lemma fg_coord_spec x (a : nat) d ws os den fd :
  coeff !! a = Some ws → coeff2 !! a = Some os → dd !! a = Some den →
  length ws = (2 * (a + 1))%nat → length os = (2 * (a + 1))%nat →
  (d < length fd)%nat →
  fg_coord value x (Z.of_nat a) fd d
  = Ok (<[d := stencil_quotient value x d ws os den]> fd).
Proof.
  intros Hc Hc2 Hdd Hlw Hlo Hd. unfold fg_coord.
  destruct (fg_inner x a d ws os (<[d := 0]> fd) 0 Hc Hc2 Hlw Hlo)
    as (fd' & -> & ->); [by apply list_lookup_insert_eq|].
  simpl. rewrite (tbl_at_lookup _ _ _ Hdd). simpl. f_equal.
  apply list_eq; intros i. destruct (decide (i = d)) as [->|Hne].
  - rewrite list_lookup_alter_eq.
    rewrite !list_lookup_insert_eq by (by rewrite ?length_insert).
    simpl. unfold stencil_quotient. by rewrite Qcplus_0_l.
  - rewrite list_lookup_alter_ne by done.
    by rewrite !list_lookup_insert_ne by done.
Qed.

Lemma finiteGradient_spec x (a : nat) ws os den :
  coeff !! a = Some ws → coeff2 !! a = Some os → dd !! a = Some den →
  length ws = (2 * (a + 1))%nat → length os = (2 * (a + 1))%nat →
  ∃ grad, finiteGradient value x (Z.of_nat a) = Ok grad
    ∧ length grad = length x
    ∧ ∀ d, (d < length x)%nat →
        grad !! d = Some (stencil_quotient value x d ws os den).
Proof.
  intros Hc Hc2 Hdd Hlw Hlo. unfold finiteGradient.
  destruct (foldlM_inv
    (λ k fd, length fd = length x
             ∧ ∀ d, (d < k)%nat →
                 fd !! d = Some (stencil_quotient value x d ws os den))
    (fg_coord value x (Z.of_nat a)) (seq 0 (length x))
    (replicate (length x) 0)) as (grad & Hrun & Hlen & Hfin).
  - split; [apply length_replicate|]. intros d Hd. lia.
  - intros k d fd Hk [Hlen Hdone].
    apply lookup_seq in Hk as [-> Hk]. simpl.
    eexists. split; [apply (fg_coord_spec x a k ws os den); auto; lia|].
    split; [by rewrite length_insert|].
    intros d Hd. destruct (decide (d = k)) as [->|Hne].
    + apply list_lookup_insert_eq. lia.
    + rewrite list_lookup_insert_ne by done. apply Hdone. lia.
  - exists grad. rewrite length_seq in Hfin. auto.
Qed.

(** The tables at the four accuracy levels. *)
Lemma tables (a : nat) :
  (a ≤ 3)%nat →
  ∃ ws os den, coeff !! a = Some ws ∧ coeff2 !! a = Some os
    ∧ dd !! a = Some den
    ∧ length ws = (2 * (a + 1))%nat ∧ length os = (2 * (a + 1))%nat
    ∧ den ≠ 0.
Proof.
  intros Ha.
  destruct a as [|[|[|[|a]]]]; [| | | |lia];
    (do 3 eexists; split_and!; [reflexivity..|]); by apply sc_neq_0.
Qed.

(** At the accuracy levels of the tables the gradient is defined. *)
Lemma finiteGradient_defined x (accuracy : Z) :
  (0 ≤ accuracy ≤ 3)%Z →
  ∃ grad, finiteGradient value x accuracy = Ok grad
          ∧ length grad = length x.
Proof.
  intros Ha.
  destruct (tables (Z.to_nat accuracy)) as (ws & os & den & ? & ? & ? & ? & ? & _);
    [lia|].
  destruct (finiteGradient_spec x (Z.to_nat accuracy) ws os den)
    as (grad & Hg & Hl & _); auto.
  rewrite Z2Nat.id in Hg by lia. eauto.
Qed.

End WithValue.
End FiniteDiffFacts.

(** C3. At every accuracy level 0..3 [finiteGradient] returns a vector of
    the size of [x] whose coordinate [d] is the sum, over the [2*(a+1)]
    points of the stencil, of [coeff[a][s] * value(x + coeff2[a][s]*eps*e_d)],
    divided by [dd[a]*eps], with [eps = 2.2204e-6] and
    [dd = {2,12,60,840}]: coordinate [d] of the result is a function of
    [value], [x], [d] and the level alone. *)
Theorem finiteGradient_stencil (value : Vector → Scalar) (x : Vector)
    (a : nat) :
  (a ≤ 3)%nat →
  ∃ ws os den,
    FiniteDiff.coeff !! a = Some ws ∧ FiniteDiff.coeff2 !! a = Some os
    ∧ [sc 2; sc 12; sc 60; sc 840] !! a = Some den
    ∧ length ws = (2 * (a + 1))%nat ∧ length os = (2 * (a + 1))%nat
    ∧ FiniteDiff.eps = dec 22204 10000000000
    ∧ ∃ grad,
        FiniteDiff.finiteGradient value x (Z.of_nat a) = Ok grad
        ∧ length grad = length x
        ∧ ∀ d, (d < length x)%nat →
            grad !! d
            = Some (foldr Qcplus 0
                      (zip_with
                         (λ w o, w * value (alter (λ v, v + o * FiniteDiff.eps) d x))
                         ws os)
                    / (den * FiniteDiff.eps)).
Proof.
  intros Ha.
  destruct (FiniteDiffFacts.tables a Ha) as (ws & os & den & Hc & Hc2 & Hdd & Hlw & Hlo & _).
  exists ws, os, den. split_and!; try done.
  by apply (FiniteDiffFacts.finiteGradient_spec value x a ws os den).
Qed.

Lemma finiteGradient_stencil_witness :
  ∃ ws os den,
    FiniteDiff.coeff !! 1%nat = Some ws ∧ FiniteDiff.coeff2 !! 1%nat = Some os
    ∧ [sc 2; sc 12; sc 60; sc 840] !! 1%nat = Some den
    ∧ length ws = 4%nat ∧ length os = 4%nat
    ∧ FiniteDiff.eps = dec 22204 10000000000
    ∧ ∃ grad,
        FiniteDiff.finiteGradient sample_value [sc 1; sc 2] 1 = Ok grad
        ∧ length grad = 2%nat
        ∧ ∀ d, (d < 2)%nat →
            grad !! d
            = Some (foldr Qcplus 0
                      (zip_with
                         (λ w o, w * sample_value
                                       (alter (λ v, v + o * FiniteDiff.eps) d
                                              [sc 1; sc 2]))
                         ws os)
                    / (den * FiniteDiff.eps)).
Proof.
  apply (finiteGradient_stencil sample_value [sc 1; sc 2] 1). lia.
Defined.

Lemma sc_1 : sc 1 = 1.
Proof. by apply Qc_is_canon. Qed.
Lemma sc_m1 : sc (-1) = - 1.
Proof. by apply Qc_is_canon. Qed.
Lemma sc_2 : sc 2 = 1 + 1.
Proof. by apply Qc_is_canon. Qed.
Lemma dec_half : dec 1 2 = / (1 + 1).
Proof. by apply Qc_is_canon. Qed.

Lemma sc_succ (k : nat) : sc (Z.of_nat (S k)) = sc (Z.of_nat k) + 1.
Proof.
  apply Qc_is_canon. unfold sc, Qc_of_Z. qc_to_q. cbn [this].
  rewrite Nat2Z.inj_succ. unfold Z.succ. rewrite inject_Z_plus. reflexivity.
Qed.

Lemma sc_nonneg (k : nat) : 0 ≤ sc (Z.of_nat k).
Proof. unfold sc, Qc_of_Z, Qcle. cbn [this]. unfold Qle. simpl. lia. Qed.

(** Every scalar lies below an integer. *)
Lemma sc_ge (q : Scalar) : ∃ k : nat, q ≤ sc (Z.of_nat k).
Proof.
  exists (Z.to_nat (Qnum q)).
  unfold sc, Qc_of_Z, Qcle. cbn [this]. unfold Qle. simpl.
  destruct (this q) as [n d]. simpl.
  destruct (decide (0 ≤ n)%Z); [rewrite Z2Nat.id by lia; nia|].
  replace (Z.of_nat (Z.to_nat n)) with 0%Z by lia. nia.
Qed.

(** ** Calls by reference: what a call changes in the store *)

Module RefFacts.

Lemma alloc_fresh (σ : Ref.store) : σ !! Ref.alloc σ = None.
Proof. unfold Ref.alloc. apply not_elem_of_dom. apply is_fresh. Qed.

Lemma alloc_ne (σ : Ref.store) l o : σ !! l = Some o → l ≠ Ref.alloc σ.
Proof. intros H ->. by rewrite alloc_fresh in H. Qed.

Lemma load_vector_Some (σ : Ref.store) l v :
  σ !! l = Some (Ref.VectorObj v) → Ref.load_vector σ l = Ok v.
Proof. intros H. unfold Ref.load_vector. by rewrite H. Qed.

Lemma load_matrix_Some (σ : Ref.store) l m :
  σ !! l = Some (Ref.MatrixObj m) → Ref.load_matrix σ l = Ok m.
Proof. intros H. unfold Ref.load_matrix. by rewrite H. Qed.

Section Calls.
Variables (p : Problem) (σ : Ref.store) (x : nat) (xv : Vector).
Hypothesis Hx : σ !! x = Some (Ref.VectorObj xv).

(** [finiteGradient] writes [grad] and nothing else. *)
Lemma finiteGradient_run grad gv accuracy :
  σ !! grad = Some (Ref.VectorObj gv) →
  Ref.finiteGradient p x grad accuracy σ
  = g ← finiteGradient p xv accuracy; Ok (<[grad := Ref.VectorObj g]> σ).
Proof.
  intros Hg. unfold Ref.finiteGradient.
  by rewrite (load_vector_Some σ x xv Hx), (load_vector_Some σ grad gv Hg).
Qed.

Lemma gradient_run grad gv :
  σ !! grad = Some (Ref.VectorObj gv) →
  Ref.gradient p x grad σ
  = g ← gradient p xv; Ok (<[grad := Ref.VectorObj g]> σ).
Proof.
  intros Hg. unfold Ref.gradient, gradient.
  destruct (gradient_override p) as [g|]; [|by eapply finiteGradient_run].
  by rewrite (load_vector_Some σ x xv Hx), (load_vector_Some σ grad gv Hg).
Qed.

(** [finiteHessian] writes [hessian] and nothing else. *)
Lemma finiteHessian_run hess h accuracy :
  σ !! hess = Some (Ref.MatrixObj h) →
  Ref.finiteHessian p x hess accuracy σ
  = h' ← finiteHessian p xv h accuracy; Ok (<[hess := Ref.MatrixObj h']> σ).
Proof.
  intros Hh. unfold Ref.finiteHessian.
  by rewrite (load_vector_Some σ x xv Hx), (load_matrix_Some σ hess h Hh).
Qed.

Lemma hessian_run hess h :
  σ !! hess = Some (Ref.MatrixObj h) →
  Ref.hessian p x hess σ
  = h' ← hessian p xv h; Ok (<[hess := Ref.MatrixObj h']> σ).
Proof.
  intros Hh. unfold Ref.hessian, hessian.
  destruct (hessian_override p) as [H|]; [|by eapply finiteHessian_run].
  by rewrite (load_vector_Some σ x xv Hx), (load_matrix_Some σ hess h Hh).
Qed.

End Calls.

(** Two locals allocated one after the other, written, and destroyed. *)
Lemma two_locals_gone (σ : Ref.store) (o1 o2 o1' o2' : Ref.object) :
  let a := Ref.alloc σ in
  let σ1 := <[a := o1]> σ in
  let e := Ref.alloc σ1 in
  delete a (delete e (<[e := o2']> (<[a := o1']> (<[e := o2]> σ1)))) = σ.
Proof.
  intros a σ1 e.
  assert (σ !! a = None) as Ha by apply alloc_fresh.
  assert (σ1 !! e = None) as He by apply alloc_fresh.
  assert (a ≠ e) as Hne.
  { apply (alloc_ne σ1 a o1). apply lookup_insert_eq. }
  apply map_eq. intros l.
  rewrite !lookup_delete, !lookup_insert. unfold σ1 in *.
  rewrite lookup_insert_ne in He by done.
  repeat case_decide; subst; try done; by rewrite lookup_insert_ne.
Qed.

Lemma one_local_gone (σ : Ref.store) (o o' : Ref.object) :
  let a := Ref.alloc σ in
  delete a (<[a := o']> (<[a := o]> σ)) = σ.
Proof.
  intros a. rewrite insert_insert_eq. apply delete_insert_id, alloc_fresh.
Qed.

Section Callers.
Variables (p : Problem) (σ : Ref.store) (x : nat) (xv : Vector).
Hypothesis Hx : σ !! x = Some (Ref.VectorObj xv).

Lemma checkGradient_run accuracy :
  Ref.checkGradient p x accuracy σ
  = b ← checkGradient p xv accuracy; Ok (b, σ).
Proof.
  unfold Ref.checkGradient, checkGradient.
  rewrite (load_vector_Some σ x xv Hx). simpl.
  set (a := Ref.alloc σ).
  set (σ1 := <[a := Ref.VectorObj (vzero (length xv))]> σ).
  set (e := Ref.alloc σ1).
  set (σ2 := <[e := Ref.VectorObj (vzero (length xv))]> σ1).
  assert (x ≠ a) as Hxa by (by eapply alloc_ne).
  assert (σ1 !! x = Some (Ref.VectorObj xv)) as Hx1
    by (unfold σ1; by rewrite lookup_insert_ne).
  assert (x ≠ e) as Hxe by (by eapply alloc_ne).
  assert (a ≠ e) as Hae
    by (eapply (alloc_ne σ1); unfold σ1; apply lookup_insert_eq).
  rewrite (gradient_run p σ2 x xv) with (gv := vzero (length xv)); cycle 1.
  { unfold σ2. by rewrite lookup_insert_ne. }
  { unfold σ2, σ1. rewrite lookup_insert_ne by done. apply lookup_insert_eq. }
  destruct (gradient p xv) as [g| |]; simpl; try done.
  rewrite (finiteGradient_run p _ x xv) with (gv := vzero (length xv)); cycle 1.
  { unfold σ2. by rewrite !lookup_insert_ne. }
  { rewrite lookup_insert_ne by done. unfold σ2. apply lookup_insert_eq. }
  destruct (finiteGradient p xv accuracy) as [nv| |]; simpl; try done.
  rewrite (load_vector_Some _ a g), (load_vector_Some _ e nv); cycle 1.
  { apply lookup_insert_eq. }
  { rewrite lookup_insert_ne by done. apply lookup_insert_eq. }
  simpl. destruct (checkGradient_loop g nv _) as [b| |]; simpl; try done.
  do 2 f_equal. apply two_locals_gone.
Qed.

Lemma checkHessian_run accuracy :
  Ref.checkHessian p x accuracy σ
  = b ← checkHessian p xv accuracy; Ok (b, σ).
Proof.
  unfold Ref.checkHessian, checkHessian.
  rewrite (load_vector_Some σ x xv Hx). simpl.
  set (a := Ref.alloc σ).
  set (σ1 := <[a := Ref.MatrixObj (mzero (length xv))]> σ).
  set (e := Ref.alloc σ1).
  set (σ2 := <[e := Ref.MatrixObj (mzero (length xv))]> σ1).
  assert (x ≠ a) as Hxa by (by eapply alloc_ne).
  assert (σ1 !! x = Some (Ref.VectorObj xv)) as Hx1
    by (unfold σ1; by rewrite lookup_insert_ne).
  assert (x ≠ e) as Hxe by (by eapply alloc_ne).
  assert (a ≠ e) as Hae
    by (eapply (alloc_ne σ1); unfold σ1; apply lookup_insert_eq).
  rewrite (hessian_run p σ2 x xv) with (h := mzero (length xv)); cycle 1.
  { unfold σ2. by rewrite lookup_insert_ne. }
  { unfold σ2, σ1. rewrite lookup_insert_ne by done. apply lookup_insert_eq. }
  destruct (hessian p xv _) as [am| |]; simpl; try done.
  rewrite (finiteHessian_run p _ x xv) with (h := mzero (length xv)); cycle 1.
  { unfold σ2. by rewrite !lookup_insert_ne. }
  { rewrite lookup_insert_ne by done. unfold σ2. apply lookup_insert_eq. }
  destruct (finiteHessian p xv _ accuracy) as [em| |]; simpl; try done.
  rewrite (load_matrix_Some _ a am), (load_matrix_Some _ e em); cycle 1.
  { apply lookup_insert_eq. }
  { rewrite lookup_insert_ne by done. apply lookup_insert_eq. }
  simpl. destruct (checkHessian_loop am em _ _) as [b| |]; simpl; try done.
  do 2 f_equal. apply two_locals_gone.
Qed.

Variables (d : nat) (dv : Vector).
Hypothesis Hd : σ !! d = Some (Ref.VectorObj dv).

Lemma linesearch_run fuel alpha_init :
  Ref.linesearch fuel x d p alpha_init σ
  = alpha ← Armijo.linesearch fuel xv dv p alpha_init; Ok (alpha, σ).
Proof.
  unfold Ref.linesearch, Armijo.linesearch.
  rewrite (load_vector_Some σ x xv Hx), (load_vector_Some σ d dv Hd). simpl.
  set (a := Ref.alloc σ).
  assert (x ≠ a) as Hxa by (by eapply alloc_ne).
  rewrite (gradient_run p _ x xv) with (gv := vzero (length xv)); cycle 1.
  { by rewrite lookup_insert_ne. }
  { apply lookup_insert_eq. }
  destruct (gradient p xv) as [g| |]; simpl; try done.
  rewrite (load_vector_Some _ a g) by apply lookup_insert_eq. simpl.
  destruct (Armijo.backtrack _ _ _ _ _ _ _ _) as [alpha| |]; simpl; try done.
  do 2 f_equal. apply one_local_gone.
Qed.

Lemma linesearch2_run fuel :
  Ref.linesearch2 fuel x d p σ
  = alpha ← Armijo2.linesearch fuel xv dv p; Ok (alpha, σ).
Proof.
  unfold Ref.linesearch2, Armijo2.linesearch.
  rewrite (load_vector_Some σ x xv Hx), (load_vector_Some σ d dv Hd). simpl.
  set (h := Ref.alloc σ).
  assert (σ !! h = None) as Hh by apply alloc_fresh.
  assert (x ≠ h) as Hxh by (by eapply alloc_ne).
  rewrite (hessian_run p _ x xv) with (h := mzero (length xv)); cycle 1.
  { by rewrite lookup_insert_ne. }
  { apply lookup_insert_eq. }
  destruct (hessian p xv _) as [hm| |]; simpl; try done.
  rewrite insert_insert_eq.
  set (σ2 := <[h := Ref.MatrixObj hm]> σ).
  set (a := Ref.alloc σ2).
  assert (σ2 !! x = Some (Ref.VectorObj xv)) as Hx2
    by (unfold σ2; by rewrite lookup_insert_ne).
  assert (x ≠ a) as Hxa by (by eapply alloc_ne).
  assert (h ≠ a) as Hha
    by (eapply (alloc_ne σ2); unfold σ2; apply lookup_insert_eq).
  rewrite (gradient_run p _ x xv) with (gv := vzero (length xv)); cycle 1.
  { by rewrite lookup_insert_ne. }
  { apply lookup_insert_eq. }
  destruct (gradient p xv) as [g| |]; simpl; try done.
  rewrite (load_matrix_Some _ h hm), (load_vector_Some _ a g); cycle 1.
  { apply lookup_insert_eq. }
  { rewrite !lookup_insert_ne by done. unfold σ2. apply lookup_insert_eq. }
  simpl.
  destruct (Armijo.backtrack _ _ _ _ _ _ _ _) as [alpha| |]; simpl; try done.
  do 2 f_equal. fold a. rewrite (one_local_gone σ2).
  unfold σ2. by apply delete_insert_id.
Qed.

End Callers.

End RefFacts.

(** ** Default derivatives *)

(** C4. A problem that overrides neither [gradient] nor [hessian] gets from
    [gradient(x, grad)] what [finiteGradient(x, grad)] gives at accuracy 0,
    and from [hessian(x, h)] what [finiteHessian(x, h)] gives at
    accuracy 0. *)
Theorem default_derivatives (p : Problem) (x : Vector) (h : Matrix) :
  gradient_override p = None → hessian_override p = None →
  gradient p x = finiteGradient p x 0
  ∧ hessian p x h = finiteHessian p x h 0.
Proof. intros Hg Hh. unfold gradient, hessian. by rewrite Hg, Hh. Qed.

Lemma default_derivatives_witness :
  gradient sample_problem [sc 1; sc 2] = finiteGradient sample_problem [sc 1; sc 2] 0
  ∧ hessian sample_problem [sc 1; sc 2] (mzero 2)
    = finiteHessian sample_problem [sc 1; sc 2] (mzero 2) 0.
Proof. apply default_derivatives; reflexivity. Defined.

(** ** The gradient checker *)

Lemma fabs_Qcabs a : fabs a = Qcabs.Qcabs a.
Proof.
  unfold fabs. destruct (decide (a < 0)) as [Hlt|Hge].
  - symmetry. apply Qcabs.Qcabs_neg. by apply Qclt_le_weak.
  - symmetry. apply Qcabs.Qcabs_pos. by apply Qcnot_lt_le.
Qed.

Lemma smax_Qcmax a b : smax a b = Qcmax a b.
Proof.
  unfold smax, Qcmax.
  destruct (decide (a < b)) as [Hlt|Hge], (decide (a ≤ b)) as [Hle|Hnle];
    try done.
  - destruct Hnle. by apply Qclt_le_weak.
  - apply Qcnot_lt_le in Hge. by apply Qcle_antisym.
Qed.

Lemma checkGradient_loop_spec (actual expected : Vector) (ds : list nat) :
  (∀ d, d ∈ ds → (d < length actual)%nat ∧ (d < length expected)%nat) →
  ∃ b, checkGradient_loop actual expected ds = Ok b
    ∧ (b = true ↔
       ∀ d a n, d ∈ ds → actual !! d = Some a → expected !! d = Some n →
         within_tolerance (dec 1 100) a n).
Proof.
  induction ds as [|d ds IH]; intros Hin; simpl.
  - exists true. split; [done|]. split; [|done].
    intros _ d a n Hd. by apply elem_of_nil in Hd.
  - destruct (Hin d) as [Ha He]; [by left|].
    apply lookup_lt_is_Some_2 in Ha as [a Ha], He as [e He].
    unfold vget. rewrite Ha, He. simpl.
    rewrite !fabs_Qcabs, !smax_Qcmax.
    destruct (decide (dec 1 100 * Qcmax (Qcmax (Qcabs.Qcabs a) (Qcabs.Qcabs e)) 1
                      < Qcabs.Qcabs (a - e))) as [Hbad|Hgood].
    + exists false. split; [done|]. split; [done|].
      intros Hall. exfalso. apply (Qclt_not_le _ _ Hbad).
      apply (Hall d a e); [by left|done..].
    + destruct IH as (b & -> & Hb); [intros d' Hd'; apply Hin; by right|].
      exists b. split; [done|]. rewrite Hb. split.
      * intros Hall d' a' n' Hd' Ha' Hn'.
        apply elem_of_cons in Hd' as [->|Hd']; [|by eapply Hall].
        rewrite Ha in Ha'. rewrite He in Hn'.
        injection Ha' as <-. injection Hn' as <-.
        by apply Qcnot_lt_le.
      * intros Hall d' a' n' Hd'. apply Hall. by right.
Qed.



(** ** The backtracking loop *)

Module ArmijoFacts.
Import Armijo ArmijoSpec.

Lemma rho_pos : 0 < rho.
Proof. reflexivity. Qed.
Lemma rho_lt_1 : rho < 1.
Proof. reflexivity. Qed.

Lemma trial_S alpha_init k :
  trial alpha_init (S k) = trial alpha_init k * rho.
Proof. unfold trial. simpl. ring. Qed.

Lemma trial_pos alpha_init k : 0 < alpha_init → 0 < trial alpha_init k.
Proof.
  intros H. induction k as [|k IH].
  - unfold trial. simpl. by rewrite Qcmult_1_r.
  - rewrite trial_S. apply Qcmult_pos_pos; [done|apply rho_pos].
Qed.

Lemma shrink_lt alpha : 0 < alpha → alpha * rho < alpha.
Proof.
  intros H. rewrite <- (Qcmult_1_r alpha) at 2.
  apply Qcmult_lt_mono_pos_l; [done|apply rho_lt_1].
Qed.

Lemma trial_le alpha_init k : 0 < alpha_init → trial alpha_init k ≤ alpha_init.
Proof.
  intros H. induction k as [|k IH].
  - unfold trial. simpl. by rewrite Qcmult_1_r.
  - rewrite trial_S. etrans; [|apply IH].
    by apply Qclt_le_weak, shrink_lt, trial_pos.
Qed.

(** The steps tried fall below every positive bound. *)
Lemma rho_pow_bound k : rho ^ k * (sc 9 + sc (Z.of_nat k)) ≤ sc 9.
Proof.
  induction k as [|k IH].
  - simpl. apply Qcle_alt. by vm_compute.
  - rewrite sc_succ. simpl.
    pose proof (sc_nonneg k) as Hk.
    assert (0 ≤ rho ^ k) as Hp by (apply Qcpower_pos; by apply Qclt_le_weak).
    revert IH Hk Hp. generalize (rho ^ k) (sc (Z.of_nat k)). intros r m IH Hk Hp.
    unfold rho, dec, sc, Qc_of_Z in *. qc_to_q. cbn [this] in *.
    unfold inject_Z in *. nra.
Qed.

Lemma trial_small (alpha_init bound : Scalar) :
  0 < alpha_init → 0 < bound → ∃ k, trial alpha_init k ≤ bound.
Proof.
  intros Ha Hb. unfold trial.
  destruct (sc_ge (sc 9 * alpha_init / bound)) as [k Hk].
  exists k. pose proof (rho_pow_bound k) as Hr.
  pose proof (sc_nonneg k) as Hk0.
  assert (0 ≤ rho ^ k) as Hp by (apply Qcpower_pos; by apply Qclt_le_weak).
  assert (sc 9 * alpha_init ≤ sc (Z.of_nat k) * bound) as Hk'.
  { apply (Qcmult_le_mono_pos_r _ _ bound Hb) in Hk.
    replace (sc 9 * alpha_init / bound * bound) with (sc 9 * alpha_init) in Hk;
      [done|].
    field. apply not_eq_sym, Qclt_not_eq, Hb. }
  clear Hk.
  revert Hr Hk0 Hp Hk'. generalize (rho ^ k) (sc (Z.of_nat k)).
  intros r m Hr Hk0 Hp Hk'.
  unfold sc, Qc_of_Z in *. qc_to_q. cbn [this] in *. unfold inject_Z in *.
  nra.
Qed.

Section Loop.
Variables (value : Vector → Scalar) (x d : Vector) (Cache alpha_init : Scalar).

Local Abbreviation phi alpha := (value (vadd x (vscale alpha d))).
Local Abbreviation run := (run_from value x d Cache alpha_init).
Local Abbreviation good k :=
  (sufficient_decrease value x d Cache (trial alpha_init k)).

Lemma guard_good k :
  value x + trial alpha_init k * Cache < phi (trial alpha_init k) ↔ ¬ good k.
Proof. unfold sufficient_decrease. by rewrite Qclt_nge. Qed.

Lemma run_good fuel k0 : good k0 → run fuel k0 = Ok (trial alpha_init k0).
Proof.
  intros Hg. unfold run_from. destruct fuel; simpl;
    rewrite decide_False; try done; by rewrite guard_good; auto.
Qed.

Lemma run_bad fuel k0 : ¬ good k0 → run (S fuel) k0 = run fuel (S k0).
Proof.
  intros Hg. unfold run_from. simpl.
  rewrite decide_True by (by rewrite guard_good).
  by rewrite <- trial_S.
Qed.

Lemma run_bad_0 k0 : ¬ good k0 → run 0 k0 = OutOfFuel.
Proof.
  intros Hg. unfold run_from. simpl.
  by rewrite decide_True by (by rewrite guard_good).
Qed.

(** The loop leaves at the first step that has the Armijo condition. *)
Lemma run_first fuel k0 k :
  (k0 ≤ k)%nat → (k - k0 ≤ fuel)%nat →
  (∀ j, (k0 ≤ j < k)%nat → ¬ good j) → good k →
  run fuel k0 = Ok (trial alpha_init k).
Proof.
  revert k0. induction fuel as [|fuel IH]; intros k0 Hle Hfuel Hbad Hgood.
  - assert (k = k0) as -> by lia. by apply run_good.
  - destruct (decide (k = k0)) as [->|Hne]; [by apply run_good|].
    rewrite run_bad by (apply Hbad; lia).
    apply IH; [lia..| |done]. intros j Hj. apply Hbad. lia.
Qed.

(** Without such a step within reach the fuel runs out. *)
Lemma run_none fuel k0 :
  (∀ j, (k0 ≤ j ≤ k0 + fuel)%nat → ¬ good j) → run fuel k0 = OutOfFuel.
Proof.
  revert k0. induction fuel as [|fuel IH]; intros k0 Hbad.
  - apply run_bad_0, Hbad. lia.
  - rewrite run_bad by (apply Hbad; lia).
    apply IH. intros j Hj. apply Hbad. lia.
Qed.

Lemma good_dec k : Decision (good k).
Proof. unfold sufficient_decrease. apply _. Qed.

(** What the loop returns is the first such step. *)
Lemma run_inv fuel k0 alpha :
  run fuel k0 = Ok alpha →
  ∃ k, (k0 ≤ k ≤ k0 + fuel)%nat ∧ alpha = trial alpha_init k ∧ good k
       ∧ ∀ j, (k0 ≤ j < k)%nat → ¬ good j.
Proof.
  revert k0. induction fuel as [|fuel IH]; intros k0 Hrun.
  - destruct (good_dec k0) as [Hg|Hg].
    + rewrite run_good in Hrun by done. injection Hrun as <-.
      exists k0. split_and!; [lia..|done|done|intros; lia].
    + by rewrite run_bad_0 in Hrun.
  - destruct (good_dec k0) as [Hg|Hg].
    + rewrite run_good in Hrun by done. injection Hrun as <-.
      exists k0. split_and!; [lia..|done|done|intros; lia].
    + rewrite run_bad in Hrun by done.
      destruct (IH _ Hrun) as (k & Hk & -> & Hgood & Hbad).
      exists k. split_and!; [lia..|done|done|].
      intros j Hj. destruct (decide (j = k0)) as [->|]; [done|].
      apply Hbad. lia.
Qed.

Lemma run_iff fuel alpha :
  run fuel 0 = Ok alpha ↔
  ∃ k, (k ≤ fuel)%nat ∧ alpha = trial alpha_init k ∧ good k
       ∧ ∀ j, (j < k)%nat → ¬ good j.
Proof.
  split.
  - intros Hrun. destruct (run_inv _ _ _ Hrun) as (k & Hk & -> & Hg & Hb).
    exists k. split_and!; [lia|done|done|]. intros j Hj. apply Hb. lia.
  - intros (k & Hk & -> & Hg & Hb).
    apply run_first; [lia..| |done]. intros j Hj. apply Hb. lia.
Qed.

Lemma run_0 fuel :
  run fuel 0 = backtrack fuel value x d (value x) Cache alpha_init
                 (value (vadd x (vscale alpha_init d))).
Proof.
  unfold run_from, trial. simpl. by rewrite Qcmult_1_r.
Qed.

End Loop.
End ArmijoFacts.

Lemma gradient_defined (p : Problem) (x : Vector) :
  ∃ grad, gradient p x = Ok grad.
Proof.
  unfold gradient. destruct (gradient_override p) as [g|]; [eauto|].
  destruct (FiniteDiffFacts.finiteGradient_defined (value p) x 0)
    as (grad & Hg & _); [lia|]. eauto.
Qed.

Lemma linesearch_backtrack (p : Problem) (x d grad : Vector)
    (alpha_init : Scalar) (fuel : nat) :
  gradient p x = Ok grad →
  Armijo.linesearch fuel x d p alpha_init
  = Armijo.backtrack fuel (value p) x d (value p x)
      (Armijo.c * dot grad d) alpha_init
      (value p (vadd x (vscale alpha_init d))).
Proof. intros Hg. unfold Armijo.linesearch. by rewrite Hg. Qed.



(** ** Matrices *)

Lemma square_mzero n : square n (mzero n).
Proof.
  split; [apply length_replicate|].
  intros i row Hrow. apply lookup_replicate in Hrow as [-> _].
  apply length_replicate.
Qed.

Lemma mset_square n m i j v :
  square n m → (i < n)%nat → (j < n)%nat →
  ∃ m', mset m i j v = Ok m' ∧ square n m'
    ∧ mget m' i j = Ok v
    ∧ (∀ i' j', (i', j') ≠ (i, j) → mget m' i' j' = mget m i' j').
Proof.
  intros [Hlen Hrows] Hi Hj. unfold mset.
  destruct (lookup_lt_is_Some_2 m i) as [row Hrow]; [lia|].
  rewrite Hrow. pose proof (Hrows i row Hrow) as Hlrow.
  rewrite decide_True by lia.
  eexists. split; [done|]. split_and!.
  - split; [by rewrite length_insert|].
    intros i' row' Hrow'. destruct (decide (i' = i)) as [->|Hne].
    + rewrite list_lookup_insert_eq in Hrow' by lia.
      injection Hrow' as <-. by rewrite length_insert.
    + rewrite list_lookup_insert_ne in Hrow' by done. eauto.
  - unfold mget, vget. rewrite list_lookup_insert_eq by lia.
    by rewrite list_lookup_insert_eq by lia.
  - intros i' j' Hne. unfold mget.
    destruct (decide (i' = i)) as [->|Hi'].
    + rewrite list_lookup_insert_eq by lia. rewrite Hrow. unfold vget.
      rewrite list_lookup_insert_ne; [done|]. intros ->. done.
    + by rewrite list_lookup_insert_ne by done.
Qed.

(** ** The finite-difference Hessian in closed form *)

Module FiniteHessianFacts.
Import FiniteDiff.

Section WithValue.
Variable value : Vector → Scalar.

(** The loop over [j] fills row [i] and leaves the other rows alone. *)
Lemma fh_row x h accuracy i :
  square (length x) h → (i < length x)%nat →
  ∃ h', foldlM (λ hessian j, mset hessian i j (fh_entry value x accuracy i j))
          h (seq 0 (length x)) = Ok h'
    ∧ square (length x) h'
    ∧ (∀ j, (j < length x)%nat →
         mget h' i j = Ok (fh_entry value x accuracy i j))
    ∧ (∀ i' j, i' ≠ i → mget h' i' j = mget h i' j).
Proof.
  intros Hsq Hi.
  destruct (foldlM_inv
    (λ k h', square (length x) h'
             ∧ (∀ j, (j < k)%nat →
                  mget h' i j = Ok (fh_entry value x accuracy i j))
             ∧ (∀ i' j, i' ≠ i → mget h' i' j = mget h i' j))
    (λ hessian j, mset hessian i j (fh_entry value x accuracy i j))
    (seq 0 (length x)) h) as (h' & Hrun & Hsq' & Hrow & Hrest).
  - split_and!; [done|intros; lia|done].
  - intros k j h0 Hk (Hsq0 & Hrow0 & Hrest0).
    apply lookup_seq in Hk as [-> Hk]. simpl.
    destruct (mset_square (length x) h0 i k (fh_entry value x accuracy i k))
      as (h1 & Hset & Hsq1 & Hget & Hother); [done..|].
    exists h1. split; [done|]. split_and!; [done| |].
    + intros j Hj. destruct (decide (j = k)) as [->|Hne]; [done|].
      rewrite Hother by congruence. apply Hrow0. lia.
    + intros i' j Hi'. rewrite Hother by congruence. by apply Hrest0.
  - exists h'. rewrite length_seq in Hrow. auto.
Qed.

(** On a matrix of the size of [x], [finiteHessian] returns and has
    written every entry. *)
Lemma finiteHessian_spec x h accuracy :
  square (length x) h →
  ∃ h', finiteHessian value x h accuracy = Ok h'
    ∧ square (length x) h'
    ∧ ∀ i j, (i < length x)%nat → (j < length x)%nat →
        mget h' i j = Ok (fh_entry value x accuracy i j).
Proof.
  intros Hsq. unfold finiteHessian.
  destruct (foldlM_inv
    (λ k h', square (length x) h'
             ∧ ∀ i j, (i < k)%nat → (j < length x)%nat →
                 mget h' i j = Ok (fh_entry value x accuracy i j))
    (λ hessian i,
       foldlM (λ hessian j, mset hessian i j (fh_entry value x accuracy i j))
         hessian (seq 0 (length x)))
    (seq 0 (length x)) h) as (h' & Hrun & Hsq' & Hall).
  - split; [done|intros; lia].
  - intros k i h0 Hk (Hsq0 & Hdone).
    apply lookup_seq in Hk as [-> Hk]. simpl.
    destruct (fh_row x h0 accuracy k Hsq0 Hk) as (h1 & Hrun & Hsq1 & Hrow & Hrest).
    exists h1. split; [done|]. split; [done|].
    intros i j Hi Hj. destruct (decide (i = k)) as [->|Hne]; [by apply Hrow|].
    rewrite Hrest by done. apply Hdone; lia.
  - exists h'. rewrite length_seq in Hall. auto.
Qed.

(** The sample points of entry [(i, j)] and of entry [(j, i)]. *)
Lemma alter_plus_minus (x : Vector) i (e : Scalar) :
  alter (λ v, v - e) i (alter (λ v, v + e) i x) = x.
Proof.
  rewrite list_alter_alter_eq. apply list_alter_id. intros v. simpl. ring.
Qed.

Lemma fh0_entry_eq x i j :
  fh0_entry value x i j
  = (value (alter (λ v, v + epsH) j (alter (λ v, v + epsH) i x))
     - value (alter (λ v, v + epsH) i x)
     - value (alter (λ v, v + epsH) j x)
     + value x) / (epsH * epsH).
Proof.
  unfold fh0_entry.
  rewrite (alter_plus_minus (alter (λ v, v + epsH) i x) j epsH).
  replace (alter (λ v, v - epsH) i
             (alter (λ v, v + epsH) j (alter (λ v, v + epsH) i x)))
    with (alter (λ v, v + epsH) j x); [done|].
  destruct (decide (i = j)) as [->|Hne]; [by rewrite alter_plus_minus|].
  rewrite (list_alter_alter_ne (λ v, v - epsH) (λ v, v + epsH) _ i j) by done.
  by rewrite alter_plus_minus.
Qed.

Lemma fh0_entry_sym x i j : fh0_entry value x i j = fh0_entry value x j i.
Proof.
  destruct (decide (i = j)) as [->|Hne]; [done|].
  rewrite (fh0_entry_eq x i j), (fh0_entry_eq x j i).
  rewrite (list_alter_alter_ne _ _ x i j) by done.
  f_equal. ring.
Qed.

Lemma probe_swap x i a j b :
  i ≠ j → probe value x i a j b = probe value x j b i a.
Proof.
  intros Hne. unfold probe. by rewrite (list_alter_alter_ne _ _ x i j).
Qed.

Lemma fh1_entry_sym x i j : fh1_entry value x i j = fh1_entry value x j i.
Proof.
  destruct (decide (i = j)) as [->|Hne]; [done|].
  unfold fh1_entry. rewrite !(probe_swap x i _ j _) by done.
  f_equal. ring.
Qed.

Lemma fh_entry_sym x accuracy i j :
  fh_entry value x accuracy i j = fh_entry value x accuracy j i.
Proof.
  unfold fh_entry. destruct (decide (accuracy = 0%Z));
    [apply fh0_entry_sym|apply fh1_entry_sym].
Qed.

End WithValue.
End FiniteHessianFacts.

(** C10. On a matrix of the size of [x], and at every accuracy (the branch
    [accuracy == 0] and the other one), [finiteHessian] returns a matrix
    whose entries [(i, j)] and [(j, i)] are equal. *)
Theorem finiteHessian_symmetric (value : Vector → Scalar) (x : Vector)
    (h : Matrix) (accuracy : Z) :
  square (length x) h →
  ∃ h', FiniteDiff.finiteHessian value x h accuracy = Ok h'
    ∧ ∀ i j, (i < length x)%nat → (j < length x)%nat →
        ∃ v, mget h' i j = Ok v ∧ mget h' j i = Ok v.
Proof.
  intros Hsq.
  destruct (FiniteHessianFacts.finiteHessian_spec value x h accuracy Hsq)
    as (h' & Hrun & _ & Hall).
  exists h'. split; [done|]. intros i j Hi Hj.
  exists (FiniteDiff.fh_entry value x accuracy i j). split; [by apply Hall|].
  rewrite (FiniteHessianFacts.fh_entry_sym value x accuracy i j).
  by apply Hall.
Qed.

Lemma finiteHessian_symmetric_witness :
  ∃ h', FiniteDiff.finiteHessian sample_value [sc 1; sc 2] (mzero 2) 3 = Ok h'
    ∧ ∀ i j, (i < 2)%nat → (j < 2)%nat →
        ∃ v, mget h' i j = Ok v ∧ mget h' j i = Ok v.
Proof.
  apply (finiteHessian_symmetric sample_value [sc 1; sc 2] (mzero 2) 3).
  apply square_mzero.
Defined.

(** ** Bounded problems *)

(** C7. Right after the default constructor, whatever the storage held
    before, every component of [lowerBound()] is minus infinity and every
    component of [upperBound()] is plus infinity. *)
Theorem default_bounds_infinite (Dim_ : Z) (junk_l junk_u : nat → Bounded.BScalar) :
  let p := Bounded.BoundedProblem_default Dim_ junk_l junk_u in
  Bounded.lowerBound p = replicate (static_size Dim_) Bounded.NegInfinity
  ∧ Bounded.upperBound p = replicate (static_size Dim_) Bounded.PosInfinity.
Proof.
  assert (∀ (c : Bounded.BScalar) junk,
    Bounded.setConstant c (Bounded.TVector_default Dim_ junk)
    = replicate (static_size Dim_) c) as Hconst.
  { intros c junk. unfold Bounded.setConstant, Bounded.TVector_default, static_size.
    destruct (decide (Dim_ = Bounded.Dynamic)) as [|_]; [done|].
    rewrite <- list_fmap_compose.
    generalize 0%nat. induction (Z.to_nat Dim_) as [|m IH]; intros k; [done|].
    simpl. f_equal. apply IH. }
  simpl. unfold Bounded.lowerBound, Bounded.upperBound. simpl.
  by rewrite !Hconst.
Qed.

(** ** Linear algebra on lists *)

Section LinearAlgebra.
Implicit Types (x y z u : Vector) (A : Matrix).

Lemma length_vadd x y : length x = length y → length (vadd x y) = length x.
Proof. intros H. unfold vadd. rewrite length_zip_with. lia. Qed.

Lemma length_vscale a x : length (vscale a x) = length x.
Proof. apply length_fmap. Qed.

Lemma length_matvec A x : length (matvec A x) = length A.
Proof. apply length_fmap. Qed.

Lemma dot_comm x y : dot x y = dot y x.
Proof.
  revert y. induction x as [|a x IH]; intros [|b y]; simpl; try done.
  rewrite IH. ring.
Qed.

Lemma dot_vadd_l x y z :
  length x = length y → dot (vadd x y) z = dot x z + dot y z.
Proof.
  revert y z. induction x as [|a x IH]; intros [|b y] [|c z] Hlen;
    simpl in *; try done; try ring.
  injection Hlen as Hlen. unfold vadd in IH. rewrite IH by done. ring.
Qed.

Lemma dot_vadd_r x y z :
  length y = length z → dot x (vadd y z) = dot x y + dot x z.
Proof.
  intros H. rewrite !(dot_comm x). by apply dot_vadd_l.
Qed.

Lemma dot_vscale_l a x y : dot (vscale a x) y = a * dot x y.
Proof.
  revert y. induction x as [|b x IH]; intros [|c y]; simpl; try ring.
  unfold vscale in IH. rewrite IH. ring.
Qed.

Lemma dot_vscale_r a x y : dot x (vscale a y) = a * dot x y.
Proof. rewrite !(dot_comm x). apply dot_vscale_l. Qed.

Lemma matvec_vadd A x y :
  length x = length y → matvec A (vadd x y) = vadd (matvec A x) (matvec A y).
Proof.
  intros H. induction A as [|row A IH]; [done|].
  unfold matvec, vadd in *. simpl. f_equal; [by apply dot_vadd_r|apply IH].
Qed.

Lemma matvec_vscale A a x : matvec A (vscale a x) = vscale a (matvec A x).
Proof.
  induction A as [|row A IH]; [done|].
  unfold matvec, vscale in *. simpl. f_equal; [apply dot_vscale_r|apply IH].
Qed.

Lemma dot_sub_l x y z :
  length x = length y →
  dot (zip_with Qcminus x y) z = dot x z - dot y z.
Proof.
  revert y z. induction x as [|a x IH]; intros [|b y] [|c z] Hlen;
    simpl in *; try done; try ring.
  injection Hlen as Hlen. rewrite IH by done. ring.
Qed.

(** Sums over an index range. *)
Lemma sumf_ext f g n :
  (∀ k, (k < n)%nat → f k = g k) → sumf f n = sumf g n.
Proof.
  revert f g. induction n as [|n IH]; intros f g Hfg; simpl; [done|].
  rewrite (Hfg 0%nat) by lia. f_equal. apply IH. intros k Hk. apply Hfg. lia.
Qed.

Lemma sumf_plus f g n : sumf (λ k, f k + g k) n = sumf f n + sumf g n.
Proof.
  revert f g. induction n as [|n IH]; intros f g; simpl; [ring|].
  rewrite (IH (λ k, f (S k)) (λ k, g (S k))). ring.
Qed.

Lemma sumf_scale a f n : sumf (λ k, a * f k) n = a * sumf f n.
Proof.
  revert f. induction n as [|n IH]; intros f; simpl; [ring|].
  rewrite (IH (λ k, f (S k))). ring.
Qed.

Lemma sumf_exchange (f : nat → nat → Scalar) n m :
  sumf (λ i, sumf (f i) m) n = sumf (λ j, sumf (λ i, f i j) n) m.
Proof.
  revert f. induction n as [|n IH]; intros f; simpl.
  - induction m as [|m IHm]; simpl; [done|]. rewrite <- IHm. ring.
  - rewrite (IH (λ i, f (S i))).
    by rewrite <- (sumf_plus (f 0%nat) (λ j, sumf (λ i, f (S i) j) n)).
Qed.

Lemma dot_sumf x y n :
  length x = n → length y = n →
  dot x y = sumf (λ k, entry x k * entry y k) n.
Proof.
  revert y n. induction x as [|a x IH]; intros [|b y] [|n] Hx Hy;
    simpl in *; try done.
  f_equal. apply IH; lia.
Qed.

Lemma entry_matvec A x i row :
  A !! i = Some row → entry (matvec A x) i = dot row x.
Proof.
  intros H. unfold entry, matvec. by rewrite list_lookup_fmap, H.
Qed.

Lemma mget_entry A n i j :
  square n A → (i < n)%nat → (j < n)%nat →
  ∃ row, A !! i = Some row ∧ length row = n ∧ mget A i j = Ok (entry row j).
Proof.
  intros [Hlen Hrows] Hi Hj.
  destruct (lookup_lt_is_Some_2 A i) as [row Hrow]; [lia|].
  pose proof (Hrows i row Hrow) as Hl.
  destruct (lookup_lt_is_Some_2 row j) as [a Ha]; [lia|].
  exists row. split_and!; [done..|].
  unfold mget, vget, entry. by rewrite Hrow, Ha.
Qed.

(** [x^T A u] as a double sum. *)
Lemma bilinear_sumf A n x u (a : nat → nat → Scalar) :
  square n A → length x = n → length u = n →
  (∀ i j, (i < n)%nat → (j < n)%nat → mget A i j = Ok (a i j)) →
  dot x (matvec A u)
  = sumf (λ i, sumf (λ j, entry x i * a i j * entry u j) n) n.
Proof.
  intros Hsq Hx Hu Ha.
  rewrite (dot_sumf x (matvec A u) n) by (rewrite ?length_matvec; by destruct Hsq).
  apply sumf_ext. intros i Hi.
  destruct (mget_entry A n i 0%nat Hsq Hi) as (row & Hrow & Hl & _); [lia|].
  rewrite (entry_matvec A u i row Hrow).
  rewrite (dot_sumf row u n) by done.
  rewrite <- sumf_scale. apply sumf_ext. intros j Hj.
  destruct (mget_entry A n i j Hsq Hi Hj) as (row' & Hrow' & _ & Hget).
  rewrite Hrow in Hrow'. injection Hrow' as <-.
  rewrite Ha in Hget by done. injection Hget as ->. ring.
Qed.

Lemma square_entries A n :
  square n A →
  ∃ a : nat → nat → Scalar,
    ∀ i j, (i < n)%nat → (j < n)%nat → mget A i j = Ok (a i j).
Proof.
  intros Hsq. exists (λ i j, entry (default [] (A !! i)) j).
  intros i j Hi Hj.
  destruct (mget_entry A n i j Hsq Hi Hj) as (row & Hrow & _ & ->).
  by rewrite Hrow.
Qed.

(** The bilinear form of a symmetric matrix is symmetric. *)
Lemma bilinear_symmetric A n x u :
  square n A → symmetric A → length x = n → length u = n →
  dot x (matvec A u) = dot u (matvec A x).
Proof.
  intros Hsq Hsym Hx Hu.
  destruct (square_entries A n Hsq) as [a Ha].
  rewrite (bilinear_sumf A n x u a), (bilinear_sumf A n u x a) by done.
  rewrite sumf_exchange. apply sumf_ext. intros i Hi.
  apply sumf_ext. intros j Hj.
  assert (a i j = a j i) as ->.
  { pose proof (Hsym i j) as H. rewrite !Ha in H by done. by injection H. }
  ring.
Qed.

(** Unit vectors. *)
Lemma dot_vzero_l n y : dot (vzero n) y = 0.
Proof.
  revert y. induction n as [|n IH]; intros [|b y]; simpl; try done.
  unfold vzero in IH. rewrite IH. ring.
Qed.

Lemma length_unit n i : length (unit n i) = n.
Proof. unfold unit, vzero. by rewrite length_insert, length_replicate. Qed.

Lemma dot_unit_l n i y :
  (i < n)%nat → length y = n → dot (unit n i) y = entry y i.
Proof.
  revert i y. induction n as [|n IH]; intros i [|b y] Hi Hy;
    simpl in *; try lia.
  destruct i as [|i]; unfold unit, vzero, entry; simpl.
  - fold (vzero n). rewrite dot_vzero_l. by rewrite Qcmult_1_l, Qcplus_0_r.
  - fold (vzero n). fold (unit n i). rewrite IH by lia.
    unfold entry. by rewrite Qcmult_0_l, Qcplus_0_l.
Qed.

Lemma perturb_unit x i delta :
  alter (λ v, v + delta) i x = vadd x (vscale delta (unit (length x) i)).
Proof.
  revert i. induction x as [|a x IH]; intros i; [done|].
  destruct i as [|i]; unfold vadd, vscale, unit, vzero in *; simpl.
  - f_equal; [ring|]. clear IH. induction x as [|c x IHx]; [done|].
    simpl. rewrite <- IHx. f_equal. ring.
  - f_equal; [ring|]. apply IH.
Qed.

(** [e_i^T A e_j] is the entry [(i, j)]. *)
Lemma bilinear_unit A n i j a :
  square n A → (i < n)%nat → (j < n)%nat → mget A i j = Ok a →
  dot (unit n i) (matvec A (unit n j)) = a.
Proof.
  intros Hsq Hi Hj Ha.
  destruct (mget_entry A n i j Hsq Hi Hj) as (row & Hrow & Hl & Hget).
  rewrite Ha in Hget. injection Hget as ->.
  rewrite dot_unit_l by (rewrite ?length_matvec; by destruct Hsq).
  rewrite (entry_matvec A _ i row Hrow), dot_comm.
  by apply dot_unit_l.
Qed.

(** A quadratic along a displacement [u]. *)
Lemma quadratic_shift A b n x u :
  length x = n → length u = n →
  quadratic A b (vadd x u)
  = quadratic A b x
    + dec 1 2 * (dot x (matvec A u) + dot u (matvec A x))
    + dec 1 2 * dot u (matvec A u) - dot b u.
Proof.
  intros Hx Hu. unfold quadratic.
  rewrite matvec_vadd by congruence.
  rewrite !dot_vadd_l by congruence.
  rewrite !dot_vadd_r by (by rewrite ?length_matvec; congruence).
  ring.
Qed.

(** The mixed second difference of a quadratic. *)
Lemma quadratic_second_difference A b n x u v :
  length x = n → length u = n → length v = n →
  quadratic A b (vadd (vadd x u) v) - quadratic A b (vadd x u)
    - quadratic A b (vadd x v) + quadratic A b x
  = dec 1 2 * (dot u (matvec A v) + dot v (matvec A u)).
Proof.
  intros Hx Hu Hv.
  rewrite (quadratic_shift A b n (vadd x u) v)
    by (rewrite ?length_vadd; congruence).
  rewrite (quadratic_shift A b n x v) by done.
  rewrite matvec_vadd by congruence.
  rewrite !dot_vadd_l by congruence.
  rewrite !dot_vadd_r by (by rewrite ?length_matvec; congruence).
  ring.
Qed.

End LinearAlgebra.

(** ** The finite-difference Hessian of a quadratic *)

Lemma epsH_pos : 0 < FiniteDiff.epsH.
Proof. reflexivity. Qed.

Lemma epsH_neq_0 : FiniteDiff.epsH ≠ 0.
Proof. intros H. pose proof epsH_pos as Hp. rewrite H in Hp. by apply Qclt_not_eq in Hp. Qed.

Lemma half_twice (a : Scalar) : dec 1 2 * (a + a) = a.
Proof.
  replace (dec 1 2 * (a + a)) with ((dec 1 2 + dec 1 2) * a) by ring.
  replace (dec 1 2 + dec 1 2) with 1 by (by apply Qc_is_canon).
  ring.
Qed.

Lemma fh0_entry_quadratic A b n x i j a :
  square n A → symmetric A → length x = n →
  (i < n)%nat → (j < n)%nat → mget A i j = Ok a →
  FiniteDiff.fh0_entry (quadratic A b) x i j = a.
Proof.
  intros Hsq Hsym Hx Hi Hj Ha.
  assert (mget A j i = Ok a) as Ha' by (by rewrite <- Hsym).
  rewrite FiniteHessianFacts.fh0_entry_eq.
  rewrite !perturb_unit, length_vadd, !Hx
    by (by rewrite length_vscale, length_unit).
  set (e := FiniteDiff.epsH).
  rewrite (quadratic_second_difference A b n)
    by (rewrite ?length_vscale, ?length_unit; done).
  rewrite !matvec_vscale, !dot_vscale_l, !dot_vscale_r.
  rewrite (bilinear_unit A n i j a), (bilinear_unit A n j i a) by done.
  replace (e * (e * a) + e * (e * a)) with (e * e * (a + a)) by ring.
  replace (dec 1 2 * (e * e * (a + a))) with (e * e * (dec 1 2 * (a + a)))
    by ring.
  rewrite half_twice. field. apply epsH_neq_0.
Qed.


(** ** Derivatives of a quadratic bowl *)

Lemma eps_neq_0 : FiniteDiff.eps ≠ 0.
Proof.
  assert (0 < FiniteDiff.eps) as Hp by reflexivity.
  intros H. rewrite H in Hp. by apply Qclt_not_eq in Hp.
Qed.

Lemma entry_sub x y k :
  length x = length y → entry (zip_with Qcminus x y) k = entry x k - entry y k.
Proof.
  intros Hlen. unfold entry. rewrite lookup_zip_with.
  destruct (x !! k) as [a|] eqn:Ha; simpl.
  - destruct (lookup_lt_is_Some_2 y k) as [c Hc];
      [rewrite <- Hlen; by eapply lookup_lt_Some|].
    by rewrite Hc.
  - apply lookup_ge_None in Ha. rewrite lookup_ge_None_2 by lia. simpl. ring.
Qed.

Lemma square_ext n A B :
  square n A → square n B →
  (∀ i j, (i < n)%nat → (j < n)%nat → mget A i j = mget B i j) → A = B.
Proof.
  intros [HlA HrA] [HlB HrB] Heq.
  apply (list_eq_same_length _ _ n); [done..|].
  intros i ra rb Hi Hra Hrb.
  apply (list_eq_same_length _ _ n); [eauto..|].
  intros j a c Hj Ha Hc.
  specialize (Heq i j Hi Hj). unfold mget, vget in Heq.
  rewrite Hra, Hrb, Ha, Hc in Heq. by injection Heq.
Qed.

Section Bowl.
Variables (p : Problem) (A : Matrix) (b : Vector) (n : nat).
Hypothesis Hbowl : quadratic_bowl p A b n.

(** The central difference of a quadratic is its derivative. *)
Lemma central_difference_quadratic x k :
  length x = n → (k < n)%nat →
  FiniteDiffSpec.stencil_quotient (quadratic A b) x k
    [sc 1; sc (-1)] [sc 1; sc (-1)] (sc 2)
  = entry (quadratic_gradient A b x) k.
Proof.
  intros Hx Hk. destruct Hbowl as [Hsq Hsym _ Hb _ _ _].
  unfold FiniteDiffSpec.stencil_quotient, FiniteDiffSpec.stencil_sum,
    FiniteDiffSpec.perturb.
  cbn [zip_with foldr]. rewrite !perturb_unit, Hx.
  rewrite !(quadratic_shift A b n)
    by (rewrite ?length_vscale, ?length_unit; done).
  rewrite !matvec_vscale, !dot_vscale_l, !dot_vscale_r.
  rewrite (bilinear_symmetric A n x (unit n k))
    by (rewrite ?length_unit; done).
  rewrite (dot_comm b), !dot_unit_l
    by (rewrite ?length_matvec; by destruct Hsq).
  unfold quadratic_gradient.
  rewrite entry_sub by (rewrite length_matvec; destruct Hsq; congruence).
  rewrite sc_1, sc_m1, sc_2, dec_half.
  field. split; [|apply eps_neq_0].
  intros H. by apply (f_equal this) in H.
Qed.

Lemma bowl_finiteGradient x :
  length x = n →
  FiniteDiff.finiteGradient (quadratic A b) x 0
  = Ok (quadratic_gradient A b x).
Proof.
  intros Hx.
  destruct (FiniteDiffFacts.finiteGradient_spec (quadratic A b) x 0
              [sc 1; sc (-1)] [sc 1; sc (-1)] (sc 2))
    as (grad & Hrun & Hlen & Hall); [done..|].
  change (Z.of_nat 0) with 0%Z in Hrun. rewrite Hrun.
  f_equal. apply (list_eq_same_length _ _ n); [|congruence|].
  - unfold quadratic_gradient. rewrite length_zip_with, length_matvec.
    destruct Hbowl as [[HA _] _ _ Hb _ _ _]. lia.
  - intros k u v Hk Hu Hv. rewrite Hall in Hu by lia. injection Hu as <-.
    rewrite central_difference_quadratic by done.
    unfold entry. by rewrite Hv.
Qed.

Lemma bowl_gradient_value x :
  length x = n → gradient p x = Ok (quadratic_gradient A b x).
Proof.
  intros Hx. unfold gradient.
  destruct (gradient_override p) as [g|] eqn:Hg.
  - f_equal. by apply (bowl_gradient p A b n Hbowl).
  - unfold finiteGradient. rewrite (bowl_value p A b n Hbowl).
    by apply bowl_finiteGradient.
Qed.

Lemma bowl_hessian_value x :
  length x = n → hessian p x (mzero n) = Ok A.
Proof.
  intros Hx. unfold hessian.
  destruct (hessian_override p) as [H|] eqn:HH.
  - f_equal. by apply (bowl_hessian p A b n Hbowl).
  - unfold finiteHessian. rewrite (bowl_value p A b n Hbowl).
    destruct Hbowl as [Hsq Hsym _ _ _ _ _].
    destruct (FiniteHessianFacts.finiteHessian_spec (quadratic A b) x
                (mzero n) 0) as (H & -> & HsqH & Hall);
      [rewrite Hx; apply square_mzero|].
    f_equal. rewrite Hx in HsqH. apply (square_ext n); [done..|].
    intros i j Hi Hj. rewrite Hall by lia.
    destruct (mget_entry A n i j Hsq Hi Hj) as (row & _ & _ & Ha).
    rewrite Ha. f_equal. unfold FiniteDiff.fh_entry. simpl.
    by apply (fh0_entry_quadratic A b n).
Qed.

(** The bowl along the ray [x + alpha * d]. *)
Lemma bowl_ray x d alpha :
  length x = n → length d = n →
  value p (vadd x (vscale alpha d))
  = value p x + alpha * dot (quadratic_gradient A b x) d
    + dec 1 2 * (alpha * alpha) * dot d (matvec A d).
Proof.
  intros Hx Hd. rewrite (bowl_value p A b n Hbowl).
  destruct Hbowl as [Hsq Hsym _ Hb _ _ _].
  rewrite (quadratic_shift A b n) by (rewrite ?length_vscale; done).
  rewrite !matvec_vscale, !dot_vscale_l, !dot_vscale_r.
  rewrite (bilinear_symmetric A n x d) by done.
  unfold quadratic_gradient.
  rewrite dot_sub_l by (rewrite length_matvec; destruct Hsq; congruence).
  rewrite (dot_comm (matvec A x) d).
  replace (alpha * dot d (matvec A x) + alpha * dot d (matvec A x))
    with (dot d (matvec A x) * alpha + dot d (matvec A x) * alpha) by ring.
  rewrite half_twice. ring.
Qed.

Lemma dot_vzero_r x m : dot x (vzero m) = 0.
Proof. rewrite dot_comm. apply dot_vzero_l. Qed.

(** A direction of descent has positive curvature. *)
Lemma bowl_curvature g d :
  length d = n → dot g d < 0 → 0 < dot d (matvec A d).
Proof.
  intros Hd Hdesc. destruct Hbowl as [[HA _] _ Hpd _ _ _ _].
  apply Hpd; [congruence|]. intros ->.
  rewrite dot_vzero_r in Hdesc. by apply Qclt_not_eq in Hdesc.
Qed.

End Bowl.

(** ** The line searches on a quadratic bowl *)

Lemma trial_small_scaled (alpha_init q r : Scalar) :
  0 < alpha_init → 0 < q → 0 < r →
  ∃ k, ArmijoSpec.trial alpha_init k * q ≤ r.
Proof.
  intros Ha Hq Hr.
  destruct (ArmijoFacts.trial_small alpha_init (r / q) Ha) as [k Hk].
  { apply Qcmult_pos_pos; [done|]. by apply Qcinv_pos. }
  exists k. apply (Qcmult_le_mono_pos_r _ _ q Hq) in Hk.
  replace (r / q * q) with r in Hk; [done|].
  field. apply not_eq_sym, Qclt_not_eq, Hq.
Qed.

(** On [f0 + alpha*s + alpha^2*q/2] a step with [alpha*q <= 1.6*(-s)] has
    the order-1 Armijo condition. *)
Lemma armijo1_on_parabola (f0 s q alpha : Scalar) :
  0 < alpha → alpha * q ≤ dec 16 10 * - s →
  f0 + alpha * s + dec 1 2 * (alpha * alpha) * q
  ≤ f0 + alpha * (Armijo.c * s).
Proof.
  intros Ha Hq. unfold Armijo.c, dec in *. qc_to_q. nra.
Qed.

(** A step of at most [0.04] has the order-2 condition. *)
Lemma armijo2_on_parabola (f0 s q alpha : Scalar) :
  0 < alpha → s < 0 → 0 < q → alpha ≤ dec 4 100 →
  f0 + alpha * s + dec 1 2 * (alpha * alpha) * q
  ≤ f0 + alpha * (Armijo2.c * s + dec 5 10 * Armijo2.c * Armijo2.c * q).
Proof.
  intros Ha Hs Hq Hsmall. unfold Armijo2.c, dec in *. qc_to_q.
  assert (0 <= alpha * q)%Q as Haq by nra.
  assert (0 <= alpha * q * ((4 # 100) - alpha))%Q as Hprod by nra.
  nra.
Qed.

Lemma decrease_of_armijo (f f0 alpha slope : Scalar) :
  0 < alpha → slope ≤ 0 → f ≤ f0 + alpha * slope → f ≤ f0.
Proof. intros Ha Hs Hf. qc_to_q. nra. Qed.

(** C2, as the code has it.  On a quadratic bowl and along a descent
    direction the order-1 search returns a step in [(0, alpha_init]] that
    does not increase the value.  The order-2 search returns a step in
    [(0, 1]] with its own condition
    [value(x + alpha*d) <= value(x) + alpha * (0.2*g.d + 0.02*d^T H d)],
    which does not increase the value when that model slope is not
    positive. *)
Theorem armijo_on_quadratic_bowl (p : Problem) (A : Matrix) (b : Vector)
    (n : nat) (x d g : Vector) :
  quadratic_bowl p A b n → length x = n → length d = n →
  gradient p x = Ok g → dot g d < 0 →
  (∀ alpha_init, 0 < alpha_init →
     ∃ fuel alpha,
       Armijo.linesearch fuel x d p alpha_init = Ok alpha
       ∧ 0 < alpha ∧ alpha ≤ alpha_init
       ∧ value p (vadd x (vscale alpha d)) ≤ value p x)
  ∧ (∃ H fuel alpha,
       hessian p x (mzero n) = Ok H
       ∧ Armijo2.linesearch fuel x d p = Ok alpha
       ∧ 0 < alpha ∧ alpha ≤ 1
       ∧ value p (vadd x (vscale alpha d))
         ≤ value p x
           + alpha * (dec 2 10 * dot g d
                      + dec 5 10 * dec 2 10 * dec 2 10 * dot d (matvec H d))
       ∧ (dec 2 10 * dot g d
          + dec 5 10 * dec 2 10 * dec 2 10 * dot d (matvec H d) ≤ 0 →
          value p (vadd x (vscale alpha d)) ≤ value p x)).
Proof.
  intros Hbowl Hx Hd Hg Hdesc.
  pose proof (bowl_gradient_value p A b n Hbowl x Hx) as Hg'.
  rewrite Hg in Hg'. injection Hg' as ->.
  pose proof (bowl_curvature p A b n Hbowl _ d Hd Hdesc) as Hq.
  set (s := dot (quadratic_gradient A b x) d) in *.
  set (q := dot d (matvec A d)) in *.
  split.
  - intros alpha_init Ha.
    set (good k := ArmijoSpec.sufficient_decrease (value p) x d
                     (Armijo.c * s) (ArmijoSpec.trial alpha_init k)).
    destruct (trial_small_scaled alpha_init q (dec 16 10 * - s)) as [k1 Hk1];
      [done..| |].
    { apply Qcmult_pos_pos; [done|]. clearbody s. clear -Hdesc. qc_to_q. lra. }
    assert (good k1) as Hgood1.
    { unfold good, ArmijoSpec.sufficient_decrease.
      rewrite (bowl_ray p A b n Hbowl) by done.
      apply armijo1_on_parabola; [by apply ArmijoFacts.trial_pos|done]. }
    destruct (least_index good k1) as (k & Hgood & Hmin); [|done|].
    { intros j. unfold good, ArmijoSpec.sufficient_decrease. apply _. }
    exists k, (ArmijoSpec.trial alpha_init k). split_and!.
    + rewrite (linesearch_backtrack p x d _ alpha_init k Hg).
      rewrite <- ArmijoFacts.run_0.
      apply ArmijoFacts.run_first; [lia..| |done].
      intros j Hj. apply Hmin. lia.
    + by apply ArmijoFacts.trial_pos.
    + by apply ArmijoFacts.trial_le.
    + apply (decrease_of_armijo _ _ (ArmijoSpec.trial alpha_init k) (Armijo.c * s));
        [by apply ArmijoFacts.trial_pos| |done].
      unfold Armijo.c, dec. clearbody s. clear -Hdesc. qc_to_q. nra.
  - pose proof (bowl_hessian_value p A b n Hbowl x Hx) as HH.
    set (Cache := Armijo2.c * s + dec 5 10 * Armijo2.c * Armijo2.c * q).
    set (good k := ArmijoSpec.sufficient_decrease (value p) x d
                     Cache (ArmijoSpec.trial 1 k)).
    destruct (ArmijoFacts.trial_small 1 (dec 4 100)) as [k1 Hk1]; [done..|].
    assert (good k1) as Hgood1.
    { unfold good, ArmijoSpec.sufficient_decrease.
      rewrite (bowl_ray p A b n Hbowl) by done.
      apply armijo2_on_parabola; [by apply ArmijoFacts.trial_pos|done..]. }
    destruct (least_index good k1) as (k & Hgood & Hmin); [|done|].
    { intros j. unfold good, ArmijoSpec.sufficient_decrease. apply _. }
    exists A, k, (ArmijoSpec.trial 1 k). split_and!; [done| | | |done|].
    + unfold Armijo2.linesearch. rewrite Hx, HH. simpl. rewrite Hg. simpl.
      fold s q Cache.
      rewrite <- (ArmijoFacts.run_0 (value p) x d Cache 1).
      apply ArmijoFacts.run_first; [lia..| |done].
      intros j Hj. apply Hmin. lia.
    + by apply ArmijoFacts.trial_pos.
    + by apply ArmijoFacts.trial_le.
    + intros Hslope.
      apply (decrease_of_armijo _ _ (ArmijoSpec.trial 1 k) Cache);
        [by apply ArmijoFacts.trial_pos|done|done].
Qed.

(** ** The order-2 search need not decrease the value *)

Lemma linesearch2_backtrack (p : Problem) (x d g : Vector) (H : Matrix)
    (fuel : nat) :
  hessian p x (mzero (length x)) = Ok H → gradient p x = Ok g →
  Armijo2.linesearch fuel x d p
  = Armijo.backtrack fuel (value p) x d (value p x)
      (Armijo2.c * dot g d
       + dec 5 10 * Armijo2.c * Armijo2.c * dot d (matvec H d))
      1 (value p (vadd x (vscale 1 d))).
Proof. intros HH Hg. unfold Armijo2.linesearch. by rewrite HH, Hg. Qed.

Lemma square_1 (a : Scalar) : square 1 [[a]].
Proof.
  split; [done|]. intros [|i] row Hrow; simpl in Hrow; [|by destruct i].
  by injection Hrow as <-.
Qed.

Lemma symmetric_1 (a : Scalar) : symmetric [[a]].
Proof.
  intros [|i] [|j]; try done; unfold mget, vget; simpl;
    by destruct i, j.
Qed.

Lemma bowl1_bowl : quadratic_bowl bowl1 [[sc 1]] [sc 0] 1.
Proof.
  split; [apply square_1|apply symmetric_1| |done..].
  - intros [|a [|]] Hlen Hne; simpl in *; try done.
    assert (a ≠ 0) as Ha by (intros ->; by apply Hne).
    rewrite sc_1.
    destruct (Qclt_le_dec a 0) as [Hlt|Hge].
    + clear -Hlt. qc_to_q. nra.
    + assert (0 < a) as Hgt.
      { apply Qcle_lt_or_eq in Hge as [?| <-]; done. }
      clear -Hgt. qc_to_q. nra.
Qed.

Lemma armijo_on_quadratic_bowl_witness :
  (∀ alpha_init, 0 < alpha_init →
     ∃ fuel alpha,
       Armijo.linesearch fuel [sc 1] [sc (-1)] bowl1 alpha_init = Ok alpha
       ∧ 0 < alpha ∧ alpha ≤ alpha_init
       ∧ value bowl1 (vadd [sc 1] (vscale alpha [sc (-1)])) ≤ value bowl1 [sc 1])
  ∧ (∃ H fuel alpha,
       hessian bowl1 [sc 1] (mzero 1) = Ok H
       ∧ Armijo2.linesearch fuel [sc 1] [sc (-1)] bowl1 = Ok alpha
       ∧ 0 < alpha ∧ alpha ≤ 1
       ∧ value bowl1 (vadd [sc 1] (vscale alpha [sc (-1)]))
         ≤ value bowl1 [sc 1]
           + alpha * (dec 2 10
                      * dot (quadratic_gradient [[sc 1]] [sc 0] [sc 1])
                            [sc (-1)]
                      + dec 5 10 * dec 2 10 * dec 2 10
                        * dot [sc (-1)] (matvec H [sc (-1)]))
       ∧ (dec 2 10
          * dot (quadratic_gradient [[sc 1]] [sc 0] [sc 1]) [sc (-1)]
          + dec 5 10 * dec 2 10 * dec 2 10
            * dot [sc (-1)] (matvec H [sc (-1)]) ≤ 0 →
          value bowl1 (vadd [sc 1] (vscale alpha [sc (-1)])) ≤ value bowl1 [sc 1])).
Proof.
  apply (armijo_on_quadratic_bowl bowl1 [[sc 1]] [sc 0] 1 [sc 1] [sc (-1)]
           (quadratic_gradient [[sc 1]] [sc 0] [sc 1]));
    [apply bowl1_bowl | reflexivity | reflexivity
    | by apply (bowl_gradient_value bowl1 [[sc 1]] [sc 0] 1 bowl1_bowl)
    | by vm_compute].
Defined.

Lemma bowl1_analytic_bowl : quadratic_bowl bowl1_analytic [[sc 1]] [sc 0] 1.
Proof.
  destruct bowl1_bowl as [Hsq Hsym Hpd Hb _ _ _].
  split; [done..|reflexivity| |].
  - intros g [= <-] x _. reflexivity.
  - intros H [= <-] x _. reflexivity.
Qed.

(** The claim C2 fails for the order-2 search: on the bowl
    [value(x) = 0.5 x^2] with its analytic gradient and Hessian, at
    [x = 1] and along the descent direction [d = -100], it returns
    [alpha = 0.9^28], and the value at [x + alpha*d] is larger than the
    value at [x]. *)
Lemma armijo2_increases_value :
  quadratic_bowl bowl1_analytic [[sc 1]] [sc 0] 1
  ∧ (∃ g, gradient bowl1_analytic [sc 1] = Ok g ∧ dot g [sc (-100)] < 0)
  ∧ Armijo2.linesearch 28 [sc 1] [sc (-100)] bowl1_analytic = Ok (dec 9 10 ^ 28)
  ∧ (∀ fuel alpha,
       Armijo2.linesearch fuel [sc 1] [sc (-100)] bowl1_analytic = Ok alpha →
       alpha = dec 9 10 ^ 28)
  ∧ ¬ value bowl1_analytic (vadd [sc 1] (vscale (dec 9 10 ^ 28) [sc (-100)]))
      ≤ value bowl1_analytic [sc 1].
Proof.
  pose proof (bowl_gradient_value bowl1_analytic _ _ 1 bowl1_analytic_bowl [sc 1] eq_refl) as Hg.
  pose proof (bowl_hessian_value bowl1_analytic _ _ 1 bowl1_analytic_bowl [sc 1] eq_refl) as HH.
  set (Cache := Armijo2.c * dot (quadratic_gradient [[sc 1]] [sc 0] [sc 1]) [sc (-100)]
                + dec 5 10 * Armijo2.c * Armijo2.c
                  * dot [sc (-100)] (matvec [[sc 1]] [sc (-100)])).
  set (good k := ArmijoSpec.sufficient_decrease (value bowl1_analytic) [sc 1] [sc (-100)]
                   Cache (ArmijoSpec.trial 1 k)).
  assert (good 28%nat) as Hgood
    by (unfold good, ArmijoSpec.sufficient_decrease; by_eval).
  assert (∀ j, (j < 28)%nat → ¬ good j) as Hbad.
  { assert (Forall (λ j, ¬ good j) (seq 0 28)) as Hall
      by (unfold good, ArmijoSpec.sufficient_decrease; by_eval).
    intros j Hj. rewrite Forall_forall in Hall. apply Hall, elem_of_seq. lia. }
  assert (ArmijoSpec.trial 1 28 = dec 9 10 ^ 28) as Htrial.
  { unfold ArmijoSpec.trial. apply Qcmult_1_l. }
  assert (∀ fuel alpha,
    Armijo2.linesearch fuel [sc 1] [sc (-100)] bowl1_analytic = Ok alpha ↔
    ∃ k, (k ≤ fuel)%nat ∧ alpha = ArmijoSpec.trial 1 k ∧ good k
         ∧ ∀ j, (j < k)%nat → ¬ good j) as Hiff.
  { intros fuel alpha.
    rewrite (linesearch2_backtrack bowl1_analytic [sc 1] [sc (-100)] _ _ fuel HH Hg).
    rewrite <- (ArmijoFacts.run_0 (value bowl1_analytic) [sc 1] [sc (-100)] Cache 1).
    apply ArmijoFacts.run_iff. }
  split_and!.
  - apply bowl1_analytic_bowl.
  - eexists. split; [apply Hg|]. by vm_compute.
  - apply Hiff. exists 28%nat.
    split_and!; [lia|symmetry; exact Htrial|exact Hgood|exact Hbad].
  - intros fuel alpha Hrun. apply Hiff in Hrun as (k & _ & -> & Hk & Hmin).
    rewrite <- Htrial. f_equal.
    destruct (lt_eq_lt_dec k 28) as [[Hlt| ->]|Hgt]; [|reflexivity|].
    + destruct (Hbad k Hlt Hk).
    + destruct (Hmin 28%nat Hgt Hgood).
  - by_eval.
Qed.


(** C9. A call reads [x] (and the search direction) and leaves them as they
    are.  [finiteGradient] and [finiteHessian] return the store of the call
    with the out-parameter replaced by their result, so every other object,
    [x] included, is as before; [checkGradient], [checkHessian] and the two
    line searches return their result together with the store of the
    call. *)
Theorem calls_leave_inputs_unchanged (p : Problem) (σ : Ref.store)
    (x : nat) (xv : Vector) :
  σ !! x = Some (Ref.VectorObj xv) →
  (∀ grad gv accuracy,
     σ !! grad = Some (Ref.VectorObj gv) →
     Ref.finiteGradient p x grad accuracy σ
     = g ← finiteGradient p xv accuracy; Ok (<[grad := Ref.VectorObj g]> σ))
  ∧ (∀ grad accuracy σ',
       Ref.finiteGradient p x grad accuracy σ = Ok σ' →
       ∀ l, l ≠ grad → σ' !! l = σ !! l)
  ∧ (∀ hess h accuracy,
       σ !! hess = Some (Ref.MatrixObj h) →
       Ref.finiteHessian p x hess accuracy σ
       = h' ← finiteHessian p xv h accuracy; Ok (<[hess := Ref.MatrixObj h']> σ))
  ∧ (∀ hess accuracy σ',
       Ref.finiteHessian p x hess accuracy σ = Ok σ' →
       σ' !! x = Some (Ref.VectorObj xv)
       ∧ ∀ l, l ≠ hess → σ' !! l = σ !! l)
  ∧ (∀ accuracy,
       Ref.checkGradient p x accuracy σ
       = b ← checkGradient p xv accuracy; Ok (b, σ))
  ∧ (∀ accuracy,
       Ref.checkHessian p x accuracy σ
       = b ← checkHessian p xv accuracy; Ok (b, σ))
  ∧ (∀ d dv fuel alpha_init,
       σ !! d = Some (Ref.VectorObj dv) →
       Ref.linesearch fuel x d p alpha_init σ
       = alpha ← Armijo.linesearch fuel xv dv p alpha_init; Ok (alpha, σ))
  ∧ (∀ d dv fuel,
       σ !! d = Some (Ref.VectorObj dv) →
       Ref.linesearch2 fuel x d p σ
       = alpha ← Armijo2.linesearch fuel xv dv p; Ok (alpha, σ)).
Proof.
  intros Hx. split_and!.
  - intros grad gv accuracy Hg. by eapply RefFacts.finiteGradient_run.
  - intros grad accuracy σ' Hrun l Hl.
    unfold Ref.finiteGradient in Hrun.
    rewrite (RefFacts.load_vector_Some σ x xv Hx) in Hrun. simpl in Hrun.
    destruct (Ref.load_vector σ grad); simpl in Hrun; try done.
    destruct (FiniteDiff.finiteGradient _ _ _); simpl in Hrun; try done.
    injection Hrun as <-. by rewrite lookup_insert_ne.
  - intros hess h accuracy Hh. by eapply RefFacts.finiteHessian_run.
  - intros hess accuracy σ' Hrun.
    unfold Ref.finiteHessian in Hrun.
    rewrite (RefFacts.load_vector_Some σ x xv Hx) in Hrun. simpl in Hrun.
    unfold Ref.load_matrix in Hrun.
    destruct (σ !! hess) as [[v|m]|] eqn:Hh; simpl in Hrun; try done.
    destruct (FiniteDiff.finiteHessian _ _ _ _); simpl in Hrun; try done.
    injection Hrun as <-. split; [|intros l Hl; by rewrite lookup_insert_ne].
    rewrite lookup_insert_ne; [done|]. intros ->. by rewrite Hx in Hh.
  - intros accuracy. by apply RefFacts.checkGradient_run.
  - intros accuracy. by apply RefFacts.checkHessian_run.
  - intros d dv fuel alpha_init Hd. by eapply RefFacts.linesearch_run.
  - intros d dv fuel Hd. by eapply RefFacts.linesearch2_run.
Qed.

(** ** The statements at sample inputs *)

Lemma sample_A_square : square 2 sample_A.
Proof.
  split; [done|]. intros [|[|i]] row Hrow; simpl in Hrow;
    [by injection Hrow as <-..|by destruct i].
Qed.

Lemma sample_A_symmetric : symmetric sample_A.
Proof.
  intros [|[|i]] [|[|j]]; unfold mget, sample_A; simpl; try done;
    try (by destruct i); try (by destruct j); unfold vget; simpl;
    try (by destruct i); by destruct j.
Qed.



(** The branch [accuracy != 0] in doubles at the same input returns
    [[1.85, -1.06], [-1.06, 4.76]]; at [x = (0, 0)], where the value is
    [0], the branch [accuracy == 0] is within [1e-4] of [A]. *)
Example finiteHessian_double_elsewhere :
  (∃ H, Double.finiteHessian (Double.quadratic Double.sample_A Double.sample_b)
          Double.sample_x (Double.mzero 2) 3 = Ok H
     ∧ ∀ i j, (i < 2)%nat → (j < 2)%nat →
         ∃ a v, Double.mget Double.sample_A i j = Ok a
           ∧ Double.mget H i j = Ok v
           ∧ Double.outside Double.tolerance a v = true)
  ∧ (∃ H, Double.finiteHessian (Double.quadratic Double.sample_A Double.sample_b)
            [0; 0]%float (Double.mzero 2) 0 = Ok H
       ∧ ∀ i j, (i < 2)%nat → (j < 2)%nat →
           ∃ a v, Double.mget Double.sample_A i j = Ok a
             ∧ Double.mget H i j = Ok v
             ∧ Double.outside Double.tolerance a v = false).
Proof.
  split; (eexists; split; [vm_compute; reflexivity|]);
    intros [|[|i]] [|[|j]] Hi Hj; try lia;
    eexists _, _; split_and!; vm_compute; reflexivity.
Qed.


Lemma calls_leave_inputs_unchanged_witness :
  (∀ grad gv accuracy,
     sample_store !! grad = Some (Ref.VectorObj gv) →
     Ref.finiteGradient sample_problem 0 grad accuracy sample_store
     = g ← finiteGradient sample_problem [sc 1; sc 2] accuracy;
       Ok (<[grad := Ref.VectorObj g]> sample_store))
  ∧ (∀ grad accuracy σ',
       Ref.finiteGradient sample_problem 0 grad accuracy sample_store = Ok σ' →
       ∀ l, l ≠ grad → σ' !! l = sample_store !! l)
  ∧ (∀ hess h accuracy,
       sample_store !! hess = Some (Ref.MatrixObj h) →
       Ref.finiteHessian sample_problem 0 hess accuracy sample_store
       = h' ← finiteHessian sample_problem [sc 1; sc 2] h accuracy;
         Ok (<[hess := Ref.MatrixObj h']> sample_store))
  ∧ (∀ hess accuracy σ',
       Ref.finiteHessian sample_problem 0 hess accuracy sample_store = Ok σ' →
       σ' !! 0%nat = Some (Ref.VectorObj [sc 1; sc 2])
       ∧ ∀ l, l ≠ hess → σ' !! l = sample_store !! l)
  ∧ (∀ accuracy,
       Ref.checkGradient sample_problem 0 accuracy sample_store
       = b ← checkGradient sample_problem [sc 1; sc 2] accuracy;
         Ok (b, sample_store))
  ∧ (∀ accuracy,
       Ref.checkHessian sample_problem 0 accuracy sample_store
       = b ← checkHessian sample_problem [sc 1; sc 2] accuracy;
         Ok (b, sample_store))
  ∧ (∀ d dv fuel alpha_init,
       sample_store !! d = Some (Ref.VectorObj dv) →
       Ref.linesearch fuel 0 d sample_problem alpha_init sample_store
       = alpha ← Armijo.linesearch fuel [sc 1; sc 2] dv sample_problem alpha_init;
         Ok (alpha, sample_store))
  ∧ (∀ d dv fuel,
       sample_store !! d = Some (Ref.VectorObj dv) →
       Ref.linesearch2 fuel 0 d sample_problem sample_store
       = alpha ← Armijo2.linesearch fuel [sc 1; sc 2] dv sample_problem;
         Ok (alpha, sample_store)).
Proof.
  apply (calls_leave_inputs_unchanged sample_problem sample_store 0 [sc 1; sc 2]).
  reflexivity.
Defined.

(** The checker at the sample point: the analytic gradient passes, the
    wrong one is reported by [false]. *)
Example checkGradient_sample_analytic :
  checkGradient sample_analytic [sc 1; sc 2] 3 = Ok true.
Proof. by vm_compute. Qed.

Example checkGradient_sample_wrong :
  checkGradient sample_wrong [sc 1; sc 2] 3 = Ok false.
Proof. by vm_compute. Qed.

(** A call by reference on the sample store: the line search returns its
    step and the store of the call. *)
Example linesearch_sample_store :
  ∃ alpha, Ref.linesearch 10 0 1 sample_problem 1 sample_store
           = Ok (alpha, sample_store).
Proof.
  rewrite (RefFacts.linesearch_run sample_problem sample_store 0 [sc 1; sc 2]
             eq_refl 1 [sc (-1); sc 0] eq_refl).
  destruct (Armijo.linesearch 10 [sc 1; sc 2] [sc (-1); sc 0] sample_problem 1)
    as [alpha| |] eqn:Hrun; [by exists alpha|..]; by vm_compute in Hrun.
Qed.

(** * Further properties *)

(** ** The Hessian checker *)

Lemma checkHessian_row_spec (actual expected : Matrix) (d : nat) (es : list nat) :
  (∀ e, e ∈ es → ∃ a n, mget actual d e = Ok a ∧ mget expected d e = Ok n) →
  ∃ b, checkHessian_row actual expected d es = Ok b
    ∧ (b = true ↔
       ∀ e a n, e ∈ es → mget actual d e = Ok a → mget expected d e = Ok n →
         within_tolerance (dec 1 10) a n).
Proof.
  induction es as [|e es IH]; intros Hin; simpl.
  - exists true. split; [done|]. split; [|done].
    intros _ e a n He. by apply elem_of_nil in He.
  - destruct (Hin e) as (a & n & Ha & Hn); [by left|].
    rewrite Ha, Hn. simpl. rewrite !fabs_Qcabs, !smax_Qcmax.
    destruct (decide (dec 1 10 * Qcmax (Qcmax (Qcabs.Qcabs a) (Qcabs.Qcabs n)) 1
                      < Qcabs.Qcabs (a - n))) as [Hbad|Hgood].
    + exists false. split; [done|]. split; [done|].
      intros Hall. exfalso. apply (Qclt_not_le _ _ Hbad).
      apply (Hall e a n); [by left|done..].
    + destruct IH as (b & -> & Hb); [intros e' He'; apply Hin; by right|].
      exists b. split; [done|]. rewrite Hb. split.
      * intros Hall e' a' n' He' Ha' Hn'.
        apply elem_of_cons in He' as [->|He']; [|by eapply Hall].
        rewrite Ha in Ha'. rewrite Hn in Hn'.
        injection Ha' as <-. injection Hn' as <-.
        by apply Qcnot_lt_le.
      * intros Hall e' a' n' He'. apply Hall. by right.
Qed.

Lemma checkHessian_loop_spec (actual expected : Matrix) (D : nat) (ds : list nat) :
  square D actual → square D expected → (∀ d, d ∈ ds → (d < D)%nat) →
  ∃ b, checkHessian_loop actual expected D ds = Ok b
    ∧ (b = true ↔
       ∀ d e a n, d ∈ ds → (e < D)%nat →
         mget actual d e = Ok a → mget expected d e = Ok n →
         within_tolerance (dec 1 10) a n).
Proof.
  intros Ha He. induction ds as [|d ds IH]; intros Hin; simpl.
  - exists true. split; [done|]. split; [|done].
    intros _ d e a n Hd. by apply elem_of_nil in Hd.
  - destruct (checkHessian_row_spec actual expected d (seq 0 D)) as (b & -> & Hb).
    { intros e Hel. apply elem_of_seq in Hel.
      assert (d < D)%nat as Hd by (apply Hin; by left).
      destruct (mget_entry actual D d e Ha) as (? & _ & _ & ->); [lia..|].
      destruct (mget_entry expected D d e He) as (? & _ & _ & ->); [lia..|].
      eauto. }
    simpl. destruct b.
    + destruct IH as (b & -> & Hb'); [intros d' Hd'; apply Hin; by right|].
      exists b. split; [done|]. rewrite Hb'. split.
      * intros Hall d' e a n Hd' Hlt Hga Hgn.
        apply elem_of_cons in Hd' as [->|Hd']; [|by eapply Hall].
        destruct Hb as [Hb _]. apply (Hb eq_refl e); [|done..].
        apply elem_of_seq. lia.
      * intros Hall d' e a n Hd'. apply Hall. by right.
    + exists false. split; [done|]. split; [done|].
      intros Hall. destruct Hb as [_ Hb]. apply Hb.
      intros e a n Hel. apply Hall; [by left|]. apply elem_of_seq in Hel. lia.
Qed.

Lemma hessian_defined (p : Problem) (x : Vector) :
  (∀ H, hessian_override p = Some H → square (length x) (H x)) →
  ∃ h, hessian p x (mzero (length x)) = Ok h ∧ square (length x) h.
Proof.
  intros Hov. unfold hessian. destruct (hessian_override p) as [H|] eqn:HH.
  - eauto.
  - destruct (FiniteHessianFacts.finiteHessian_spec (value p) x (mzero (length x)) 0)
      as (h & Hrun & Hsq & _); [apply square_mzero|]. eauto.
Qed.

(** X1. With a Hessian override that gives a matrix of the size of [x] (or
    with none), and at every accuracy, [checkHessian] returns a boolean,
    which is [true] exactly when every entry of the Hessian of the problem
    is within [1e-1 * max(|analytic|, |numeric|, 1)] of the entry of the
    finite-difference Hessian; the call on a store that holds [x] returns
    that store. *)
Theorem checkHessian_spec (p : Problem) (x : Vector) (accuracy : Z) :
  (∀ H, hessian_override p = Some H → square (length x) (H x)) →
  ∃ analytic numeric b,
    hessian p x (mzero (length x)) = Ok analytic
    ∧ finiteHessian p x (mzero (length x)) accuracy = Ok numeric
    ∧ checkHessian p x accuracy = Ok b
    ∧ (b = true ↔
       ∀ i j a n, (i < length x)%nat → (j < length x)%nat →
         mget analytic i j = Ok a → mget numeric i j = Ok n →
         within_tolerance (dec 1 10) a n)
    ∧ ∀ (σ : Ref.store) (lx : nat),
        σ !! lx = Some (Ref.VectorObj x) →
        Ref.checkHessian p lx accuracy σ = Ok (b, σ).
Proof.
  intros Hov. destruct (hessian_defined p x Hov) as (analytic & Ha & Hsq).
  destruct (FiniteHessianFacts.finiteHessian_spec (value p) x
              (mzero (length x)) accuracy (square_mzero _))
    as (numeric & Hn & Hsqn & _).
  destruct (checkHessian_loop_spec analytic numeric (length x) (seq 0 (length x)))
    as (b & Hb & Hiff); [done..| |].
  { intros d Hd. apply elem_of_seq in Hd. lia. }
  assert (checkHessian p x accuracy = Ok b) as Hrun.
  { unfold checkHessian. rewrite Ha. simpl.
    unfold finiteHessian. rewrite Hn. simpl. done. }
  exists analytic, numeric, b. split_and!; [done..| |].
  - rewrite Hiff. split; intros Hall i j a n Hi; apply Hall.
    + apply elem_of_seq. lia.
    + apply elem_of_seq in Hi. lia.
  - intros σ lx Hlx.
    by rewrite (RefFacts.checkHessian_run p σ lx x Hlx), Hrun.
Qed.

(** X2. On a matrix of the size of [x], and at every accuracy,
    [finiteHessian] returns, and what it returns does not depend on what
    the out-parameter held at the call: every entry is written. *)
Theorem finiteHessian_overwrites (value : Vector → Scalar) (x : Vector)
    (accuracy : Z) (h1 h2 : Matrix) :
  square (length x) h1 → square (length x) h2 →
  ∃ H, FiniteDiff.finiteHessian value x h1 accuracy = Ok H
    ∧ FiniteDiff.finiteHessian value x h2 accuracy = Ok H
    ∧ square (length x) H.
Proof.
  intros H1 H2.
  destruct (FiniteHessianFacts.finiteHessian_spec value x h1 accuracy H1)
    as (Ha & Hra & Hsa & Hea).
  destruct (FiniteHessianFacts.finiteHessian_spec value x h2 accuracy H2)
    as (Hb & Hrb & Hsb & Heb).
  exists Ha. split_and!; [done| |done].
  rewrite Hrb. f_equal. apply (square_ext (length x)); [done..|].
  intros i j Hi Hj. by rewrite Hea, Heb.
Qed.

(** X3. At an accuracy outside [0..3] the tables are indexed out of their
    range as soon as [x] has a coordinate: the call is undefined; on the
    empty vector no table is read and the gradient is the empty vector. *)
Theorem finiteGradient_accuracy_out_of_range (value : Vector → Scalar)
    (a : Scalar) (x : Vector) (accuracy : Z) :
  ¬ (0 ≤ accuracy ≤ 3)%Z →
  FiniteDiff.finiteGradient value (a :: x) accuracy = Undefined
  ∧ FiniteDiff.finiteGradient value [] accuracy = Ok [].
Proof.
  intros Hacc. split; [|done].
  unfold FiniteDiff.finiteGradient. simpl.
  assert (FiniteDiff.fg_coord value (a :: x) accuracy
            (0 :: replicate (length x) 0) 0 = Undefined) as ->; [|done].
  unfold FiniteDiff.fg_coord.
  destruct (decide (accuracy < 0)%Z) as [Hneg|Hpos].
  - rewrite seqZ_nil by lia. simpl.
    unfold tbl_at. by rewrite decide_False by lia.
  - rewrite seqZ_cons by lia. simpl.
    unfold FiniteDiff.fg_step.
    assert (tbl_at FiniteDiff.coeff2 accuracy = Undefined) as ->; [|done].
    unfold tbl_at. rewrite decide_True by lia.
    rewrite lookup_ge_None_2; [done|]. simpl. lia.
Qed.

Lemma stencil_poly_nil (ws os : list Scalar) (e : Scalar) :
  foldr Qcplus 0 (zip_with (λ w o, w * polyval [] (o * e)) ws os) = 0.
Proof.
  revert os. induction ws as [|w ws IH]; intros [|o os]; simpl; try done.
  rewrite IH. ring.
Qed.

Lemma stencil_poly_cons (ws os : list Scalar) (c : Scalar) (cs : list Scalar)
    (e : Scalar) :
  length ws = length os →
  foldr Qcplus 0 (zip_with (λ w o, w * polyval (c :: cs) (o * e)) ws os)
  = c * foldr Qcplus 0 ws
    + e * foldr Qcplus 0
            (zip_with (λ w o, w * polyval cs (o * e)) (zip_with Qcmult ws os) os).
Proof.
  revert os. induction ws as [|w ws IH]; intros [|o os] Hlen;
    simpl in *; try done; [ring|].
  rewrite IH by lia. ring.
Qed.

Lemma stencil_poly_moments (ws os cs : list Scalar) (e : Scalar) :
  length ws = length os →
  foldr Qcplus 0 (zip_with (λ w o, w * polyval cs (o * e)) ws os)
  = polyval (zip_with Qcmult cs (moments ws os (length cs))) e.
Proof.
  revert ws. induction cs as [|c cs IH]; intros ws Hlen.
  - apply stencil_poly_nil.
  - rewrite stencil_poly_cons by done. simpl.
    rewrite IH by (rewrite length_zip_with; lia). done.
Qed.

(** The moments of the four stencils: the first is [dd[a]], the others up
    to the order [2*(a+1)] vanish. *)
Lemma table_moments (a : nat) ws os den :
  FiniteDiff.coeff !! a = Some ws → FiniteDiff.coeff2 !! a = Some os →
  FiniteDiff.dd !! a = Some den →
  moments ws os (2 * (a + 1) + 1)
  = 0 :: den :: replicate (2 * (a + 1) - 1) 0.
Proof.
  intros Hc Hc2 Hdd.
  destruct a as [|[|[|[|a]]]]; simpl in Hc, Hc2, Hdd; simplify_eq; by_eval.
Qed.

Lemma polyval_zero_tail (cs : list Scalar) (e : Scalar) (n : nat) :
  polyval (zip_with Qcmult cs (replicate n 0)) e = 0.
Proof.
  revert n. induction cs as [|c cs IH]; intros [|n]; try done.
  change (c * 0 + e * polyval (zip_with Qcmult cs (replicate n 0)) e = 0).
  rewrite IH. ring.
Qed.

Lemma polyval_first_moment (cs : list Scalar) (den e : Scalar) (n : nat) :
  polyval (zip_with Qcmult cs (0 :: den :: replicate n 0)) e
  = e * (default 0 (cs !! 1%nat) * den).
Proof.
  destruct cs as [|c0 [|c1 cs]]; [simpl; ring..|].
  change (c0 * 0
          + e * (c1 * den + e * polyval (zip_with Qcmult cs (replicate n 0)) e)
          = e * (c1 * den)).
  rewrite polyval_zero_tail. ring.
Qed.

Lemma stencil_quotient_polynomial (value : Vector → Scalar) (x : Vector)
    (a d : nat) ws os den (cs : list Scalar) :
  FiniteDiff.coeff !! a = Some ws → FiniteDiff.coeff2 !! a = Some os →
  FiniteDiff.dd !! a = Some den →
  length cs = (2 * (a + 1) + 1)%nat →
  (∀ t, value (alter (λ v, v + t) d x) = polyval cs t) →
  FiniteDiffSpec.stencil_quotient value x d ws os den = default 0 (cs !! 1%nat).
Proof.
  intros Hc Hc2 Hdd Hlen Hpoly.
  assert (a ≤ 3)%nat as Ha.
  { apply lookup_lt_Some in Hdd. simpl in Hdd. lia. }
  destruct (FiniteDiffFacts.tables a Ha)
    as (ws' & os' & den' & Hc' & Hc2' & Hdd' & Hlw & Hlo & Hden).
  rewrite Hc in Hc'. rewrite Hc2 in Hc2'. rewrite Hdd in Hdd'.
  injection Hc' as <-. injection Hc2' as <-. injection Hdd' as <-.
  unfold FiniteDiffSpec.stencil_quotient, FiniteDiffSpec.stencil_sum,
    FiniteDiffSpec.perturb.
  rewrite (zip_with_ext _ (λ w o, w * polyval cs (o * FiniteDiff.eps)) ws ws os os)
    by (intros; by rewrite ?Hpoly).
  rewrite stencil_poly_moments by congruence.
  rewrite Hlen, (table_moments a ws os den) by done.
  rewrite polyval_first_moment.
  field. split; [apply eps_neq_0|done].
Qed.

(** X4. The stencil of accuracy [a] is exact on polynomials of degree up to
    [2*(a+1)]: if [value], moved by [t] along coordinate [d], is
    [c0 + c1*t + ... + c_n*t^n] with [n = 2*(a+1)], then coordinate [d] of
    [finiteGradient] is [c1]. *)
Theorem finiteGradient_polynomial_exact (value : Vector → Scalar) (x : Vector)
    (a d : nat) (cs : list Scalar) :
  (a ≤ 3)%nat → (d < length x)%nat →
  length cs = (2 * (a + 1) + 1)%nat →
  (∀ t, value (alter (λ v, v + t) d x) = polyval cs t) →
  ∃ grad, FiniteDiff.finiteGradient value x (Z.of_nat a) = Ok grad
    ∧ grad !! d = cs !! 1%nat.
Proof.
  intros Ha Hd Hlen Hpoly.
  destruct (FiniteDiffFacts.tables a Ha)
    as (ws & os & den & Hc & Hc2 & Hdd & Hlw & Hlo & _).
  destruct (FiniteDiffFacts.finiteGradient_spec value x a ws os den)
    as (grad & Hrun & _ & Hall); [done..|].
  exists grad. split; [done|]. rewrite Hall by done.
  rewrite (stencil_quotient_polynomial value x a d ws os den cs) by done.
  destruct (lookup_lt_is_Some_2 cs 1) as [c1 Hc1]; [lia|]. by rewrite Hc1.
Qed.

Lemma polyval_zeros (n : nat) (t : Scalar) : polyval (replicate n 0) t = 0.
Proof.
  induction n as [|n IH]; [done|].
  change (0 + t * polyval (replicate n 0) t = 0). rewrite IH. ring.
Qed.

Lemma polyval_quadratic (V L M t : Scalar) (n : nat) :
  polyval (V :: L :: M :: replicate n 0) t = V + t * L + t * t * M.
Proof.
  change (V + t * (L + t * (M + t * polyval (replicate n 0) t))
          = V + t * L + t * t * M).
  rewrite polyval_zeros. ring.
Qed.

(** A quadratic along one coordinate, and along two. *)
Lemma quadratic_coordinate A b n x d t :
  square n A → symmetric A → length b = n → length x = n → (d < n)%nat →
  quadratic A b (alter (λ v, v + t) d x)
  = quadratic A b x + t * entry (quadratic_gradient A b x) d
    + t * t * (dec 1 2 * dot (unit n d) (matvec A (unit n d))).
Proof.
  intros Hsq Hsym Hb Hx Hd.
  rewrite perturb_unit, Hx.
  rewrite (quadratic_shift A b n) by (rewrite ?length_vscale, ?length_unit; done).
  rewrite !matvec_vscale, !dot_vscale_l, !dot_vscale_r.
  rewrite (bilinear_symmetric A n x (unit n d)) by (rewrite ?length_unit; done).
  rewrite (dot_comm b), !(dot_unit_l n d (matvec A x)), (dot_unit_l n d b)
    by (rewrite ?length_matvec; by destruct Hsq).
  unfold quadratic_gradient.
  rewrite entry_sub by (rewrite length_matvec; destruct Hsq; congruence).
  qc_field.
Qed.

Lemma finiteGradient_quadratic_any A b x (a : nat) :
  (a ≤ 3)%nat → square (length x) A → symmetric A → length b = length x →
  FiniteDiff.finiteGradient (quadratic A b) x (Z.of_nat a)
  = Ok (quadratic_gradient A b x).
Proof.
  intros Ha Hsq Hsym Hb.
  destruct (FiniteDiffFacts.tables a Ha)
    as (ws & os & den & Hc & Hc2 & Hdd & Hlw & Hlo & _).
  destruct (FiniteDiffFacts.finiteGradient_spec (quadratic A b) x a ws os den)
    as (grad & -> & Hlen & Hall); [done..|].
  f_equal. apply (list_eq_same_length _ _ (length x)); [|done|].
  - unfold quadratic_gradient. rewrite length_zip_with, length_matvec.
    destruct Hsq as [HA _]. lia.
  - intros k u v Hk Hu Hv. rewrite Hall in Hu by lia. injection Hu as <-.
    rewrite (stencil_quotient_polynomial (quadratic A b) x a k ws os den
               (quadratic A b x :: entry (quadratic_gradient A b x) k
                :: dec 1 2 * dot (unit (length x) k)
                                 (matvec A (unit (length x) k))
                :: replicate (2 * a) 0)); try done.
    + simpl. unfold entry. by rewrite Hv.
    + simpl. rewrite length_replicate. lia.
    + intros t. rewrite polyval_quadratic.
      by apply quadratic_coordinate.
Qed.

Lemma Qcmax_ge_r (a b : Scalar) : b ≤ Qcmax a b.
Proof.
  unfold Qcmax. destruct (decide (a ≤ b)) as [H|H]; [done|].
  apply Qclt_le_weak. by apply Qcnot_le_lt.
Qed.

Lemma within_tolerance_same (rel a : Scalar) : 0 ≤ rel → within_tolerance rel a a.
Proof.
  intros Hrel. unfold within_tolerance.
  replace (a - a) with 0 by ring.
  rewrite Qcabs.Qcabs_pos by done.
  apply Qcmult_nonneg_nonneg; [done|].
  etrans; [|apply Qcmax_ge_r]. done.
Qed.

Lemma checkGradient_loop_same (g : Vector) (n : nat) :
  length g = n → checkGradient_loop g g (seq 0 n) = Ok true.
Proof.
  intros Hlen.
  destruct (checkGradient_loop_spec g g (seq 0 n)) as (b & -> & Hb).
  { intros d Hd. apply elem_of_seq in Hd. lia. }
  f_equal. apply Hb. intros d a a' _ Ha Ha'.
  rewrite Ha in Ha'. injection Ha' as <-. by apply within_tolerance_same.
Qed.

Lemma checkHessian_loop_same (h : Matrix) (n : nat) :
  square n h → checkHessian_loop h h n (seq 0 n) = Ok true.
Proof.
  intros Hsq.
  destruct (checkHessian_loop_spec h h n (seq 0 n)) as (b & -> & Hb); [done..| |].
  { intros d Hd. apply elem_of_seq in Hd. lia. }
  f_equal. apply Hb. intros d e a a' _ _ Ha Ha'.
  rewrite Ha in Ha'. injection Ha' as <-. by apply within_tolerance_same.
Qed.

Lemma gradient_quadratic (p : Problem) (A : Matrix) (b x : Vector) :
  value p = quadratic A b →
  square (length x) A → symmetric A → length b = length x →
  (∀ g, gradient_override p = Some g → g x = quadratic_gradient A b x) →
  gradient p x = Ok (quadratic_gradient A b x).
Proof.
  intros Hv HA Hsym Hb Hg. unfold gradient.
  destruct (gradient_override p) as [g|] eqn:Hov.
  - f_equal. by apply Hg.
  - unfold finiteGradient. rewrite Hv.
    apply (finiteGradient_quadratic_any A b x 0); [lia|done..].
Qed.

(** X5. For [value(x) = 0.5 x^T A x - b^T x] with a symmetric [A],
    [finiteGradient] returns exactly [A x - b] at each of the four
    accuracy levels. *)
Theorem finiteGradient_quadratic_exact (A : Matrix) (b x : Vector) (a : nat) :
  (a ≤ 3)%nat → square (length x) A → symmetric A → length b = length x →
  FiniteDiff.finiteGradient (quadratic A b) x (Z.of_nat a)
  = Ok (quadratic_gradient A b x).
Proof. apply finiteGradient_quadratic_any. Qed.

(** X7. In exact arithmetic, a problem whose value is such a quadratic,
    and whose gradient is the default one or the analytic [A x - b],
    passes [checkGradient] at every accuracy level of the tables: both
    sides of the comparison are [A x - b]. *)
Theorem checkGradient_passes_on_quadratic (p : Problem) (A : Matrix)
    (b x : Vector) (accuracy : Z) :
  value p = quadratic A b →
  square (length x) A → symmetric A → length b = length x →
  (∀ g, gradient_override p = Some g → g x = quadratic_gradient A b x) →
  (0 ≤ accuracy ≤ 3)%Z →
  checkGradient p x accuracy = Ok true.
Proof.
  intros Hv HA Hsym Hb Hg Hacc. unfold checkGradient.
  rewrite (gradient_quadratic p A b x) by done.
  simpl. unfold finiteGradient. rewrite Hv.
  rewrite <- (Z2Nat.id accuracy) by lia.
  rewrite finiteGradient_quadratic_any by (done || lia). simpl.
  apply checkGradient_loop_same.
  unfold quadratic_gradient. rewrite length_zip_with, length_matvec.
  destruct HA as [HA _]. lia.
Qed.

(** X9. For a problem that overrides neither derivative, [checkGradient]
    and [checkHessian] at accuracy 0 compare the finite differences with
    themselves and return [true], whatever the objective. *)
Theorem checks_vacuous_without_override (p : Problem) (x : Vector) :
  gradient_override p = None → hessian_override p = None →
  checkGradient p x 0 = Ok true ∧ checkHessian p x 0 = Ok true.
Proof.
  intros Hg Hh. split.
  - unfold checkGradient, gradient. rewrite Hg.
    destruct (FiniteDiffFacts.finiteGradient_defined (value p) x 0)
      as (g & Hrun & Hlen); [lia|].
    unfold finiteGradient. rewrite Hrun. simpl.
    by apply checkGradient_loop_same.
  - unfold checkHessian, hessian. rewrite Hh.
    destruct (FiniteHessianFacts.finiteHessian_spec (value p) x
                (mzero (length x)) 0 (square_mzero _)) as (h & Hrun & Hsq & _).
    unfold finiteHessian. rewrite Hrun. simpl.
    by apply checkHessian_loop_same.
Qed.

(** ** More on the line searches *)

Lemma run_out_of_fuel value x d Cache alpha_init fuel :
  ArmijoSpec.run_from value x d Cache alpha_init fuel 0 = OutOfFuel ↔
  ∀ k, (k ≤ fuel)%nat →
    ¬ ArmijoSpec.sufficient_decrease value x d Cache
        (ArmijoSpec.trial alpha_init k).
Proof.
  split.
  - intros Hrun k Hk Hgood.
    destruct (least_index
                (λ k, ArmijoSpec.sufficient_decrease value x d Cache
                        (ArmijoSpec.trial alpha_init k)) k)
      as (k0 & Hk0 & Hmin); [|done|].
    { intros j. unfold ArmijoSpec.sufficient_decrease. apply _. }
    assert (k0 ≤ k)%nat as Hle.
    { destruct (decide (k0 ≤ k)%nat) as [|Hgt]; [done|].
      destruct (Hmin k); [lia|done]. }
    rewrite (ArmijoFacts.run_first value x d Cache alpha_init fuel 0 k0) in Hrun;
      [done|lia|lia| |done].
    intros j Hj. apply Hmin. lia.
  - intros Hbad. apply ArmijoFacts.run_none. intros j Hj. apply Hbad. lia.
Qed.

Lemma hessian_returns (p : Problem) (x : Vector) :
  ∃ h, hessian p x (mzero (length x)) = Ok h.
Proof.
  unfold hessian. destruct (hessian_override p) as [H|]; [eauto|].
  destruct (FiniteHessianFacts.finiteHessian_spec (value p) x
              (mzero (length x)) 0 (square_mzero _)) as (h & Hrun & _).
  eauto.
Qed.

Lemma trial_1 k : ArmijoSpec.trial 1 k = dec 9 10 ^ k.
Proof. unfold ArmijoSpec.trial. apply Qcmult_1_l. Qed.

(** X10. The Hessian and the gradient at [x] are defined, and the order-2
    search returns [alpha] exactly when [alpha = 0.9^k] for the smallest
    [k] (within the iterations allowed) at which
    [value(x + alpha*d) <= value(x) + alpha*(0.2*g.d + 0.5*0.2*0.2*d^T H d)];
    it runs out of [fuel] iterations exactly when the condition fails at
    [0.9^k] for every [k <= fuel]. *)
Theorem linesearch2_returns_first_step (p : Problem) (x d : Vector) :
  ∃ h grad,
    hessian p x (mzero (length x)) = Ok h ∧ gradient p x = Ok grad ∧
    let slope := dec 2 10 * dot grad d
                 + dec 5 10 * dec 2 10 * dec 2 10 * dot d (matvec h d) in
    let holds (alpha : Scalar) :=
      value p (vadd x (vscale alpha d)) ≤ value p x + alpha * slope in
    (∀ fuel alpha,
       Armijo2.linesearch fuel x d p = Ok alpha ↔
       ∃ k, (k ≤ fuel)%nat ∧ alpha = dec 9 10 ^ k ∧ holds alpha
            ∧ ∀ j, (j < k)%nat → ¬ holds (dec 9 10 ^ j))
    ∧ (∀ fuel,
         Armijo2.linesearch fuel x d p = OutOfFuel ↔
         ∀ k, (k ≤ fuel)%nat → ¬ holds (dec 9 10 ^ k)).
Proof.
  destruct (hessian_returns p x) as [h Hh].
  destruct (gradient_defined p x) as [grad Hg].
  exists h, grad. split_and!; [done..|]. intros slope holds.
  assert (∀ fuel, Armijo2.linesearch fuel x d p
                  = ArmijoSpec.run_from (value p) x d slope 1 fuel 0) as Hrun.
  { intros fuel. rewrite (linesearch2_backtrack p x d grad h fuel Hh Hg).
    by rewrite ArmijoFacts.run_0. }
  split.
  - intros fuel alpha. rewrite Hrun, ArmijoFacts.run_iff.
    unfold ArmijoSpec.sufficient_decrease.
    split; intros (k & Hk & -> & Hgood & Hbad); exists k.
    + rewrite trial_1 in *. split_and!; [done..|].
      intros j Hj. specialize (Hbad j Hj). by rewrite trial_1 in Hbad.
    + rewrite trial_1. split_and!; [done..|].
      intros j Hj. rewrite trial_1. by apply Hbad.
  - intros fuel. rewrite Hrun, run_out_of_fuel.
    unfold ArmijoSpec.sufficient_decrease.
    split; intros Hbad k Hk; specialize (Hbad k Hk);
      rewrite trial_1 in *; done.
Qed.


Lemma vadd_vscale_vzero (x : Vector) (a : Scalar) :
  vadd x (vscale a (vzero (length x))) = x.
Proof.
  induction x as [|v x IH]; [done|].
  unfold vadd, vscale, vzero in *. simpl. f_equal; [ring|apply IH].
Qed.

Lemma backtrack_leaves_at_once fuel value x d f_in Cache alpha f :
  ¬ f_in + alpha * Cache < f →
  Armijo.backtrack fuel value x d f_in Cache alpha f = Ok alpha.
Proof. intros H. destruct fuel; simpl; by rewrite decide_False. Qed.

(** X12. For the zero direction both searches leave their loop at the
    first test and return the initial step ([alpha_init], and [1] for the
    order-2 search), whatever the objective and the iterations allowed. *)
Theorem linesearch_zero_direction (p : Problem) (x : Vector) (fuel : nat)
    (alpha_init : Scalar) :
  Armijo.linesearch fuel x (vzero (length x)) p alpha_init = Ok alpha_init
  ∧ Armijo2.linesearch fuel x (vzero (length x)) p = Ok 1.
Proof.
  destruct (hessian_returns p x) as [h Hh].
  destruct (gradient_defined p x) as [g Hg].
  split.
  - rewrite (linesearch_backtrack p x _ g alpha_init fuel Hg).
    apply backtrack_leaves_at_once.
    rewrite vadd_vscale_vzero, dot_vzero_r.
    apply Qcle_not_lt. replace (alpha_init * (Armijo.c * 0)) with 0 by ring.
    by rewrite Qcplus_0_r.
  - rewrite (linesearch2_backtrack p x _ g h fuel Hh Hg).
    apply backtrack_leaves_at_once.
    rewrite vadd_vscale_vzero, dot_vzero_r, dot_vzero_l.
    apply Qcle_not_lt.
    replace (1 * (Armijo2.c * 0 + dec 5 10 * Armijo2.c * Armijo2.c * 0))
      with 0 by ring.
    by rewrite Qcplus_0_r.
Qed.



Lemma last_set_snoc {V} (f : bound_call V → option V) cs c :
  last_set f (cs ++ [c])
  = match f c with Some b => Some b | None => last_set f cs end.
Proof. unfold last_set. by rewrite foldl_snoc. Qed.

(** X15. After any sequence of calls of [setLowerBound], [setUpperBound]
    and [setBoxConstraint] on a new [Problem], [hasLowerBound()] tells
    whether one of them set a lower bound and [lowerBound()] is the last
    one set (what the constructor left otherwise), and likewise for the
    upper bound: setting one bound leaves the other as it is. *)
Theorem problem_bounds_after_calls {V : Type} (junk_l junk_u : V)
    (cs : list (bound_call V)) :
  let st := foldl problem_call (ProblemBounds.Problem_default junk_l junk_u) cs in
  ProblemBounds.hasLowerBound st = bool_decide (is_Some (last_set lower_of cs))
  ∧ ProblemBounds.hasUpperBound st = bool_decide (is_Some (last_set upper_of cs))
  ∧ ProblemBounds.lowerBound st = default junk_l (last_set lower_of cs)
  ∧ ProblemBounds.upperBound st = default junk_u (last_set upper_of cs).
Proof.
  induction cs as [|c cs IH] using rev_ind; [done|].
  simpl in *. rewrite foldl_snoc, !last_set_snoc.
  destruct IH as (IH1 & IH2 & IH3 & IH4).
  destruct c as [lb|ub|lb ub]; simpl; split_and!; done.
Qed.

(** X16. After any sequence of calls of the setters of [BoundedProblem],
    from either constructor, [lowerBound()] is the last lower bound set
    (the constructed one otherwise), likewise [upperBound()], and the
    flags [hasLowerBound_], [hasUpperBound_] of the base class are as the
    constructor left them: these setters do not write them. *)
Theorem bounded_bounds_after_calls (st0 : Bounded.BoundedProblem)
    (cs : list (bound_call (list Bounded.BScalar))) :
  let st := foldl bounded_call st0 cs in
  Bounded.lowerBound st
  = default (Bounded.lowerBound st0) (last_set lower_of cs)
  ∧ Bounded.upperBound st
    = default (Bounded.upperBound st0) (last_set upper_of cs)
  ∧ Bounded.hasLowerBound_ st = Bounded.hasLowerBound_ st0
  ∧ Bounded.hasUpperBound_ st = Bounded.hasUpperBound_ st0.
Proof.
  induction cs as [|c cs IH] using rev_ind; [done|].
  simpl in *. rewrite foldl_snoc, !last_set_snoc.
  destruct IH as (IH1 & IH2 & IH3 & IH4).
  destruct c as [lb|ub|lb ub]; simpl; split_and!; done.
Qed.

Section ExampleFacts.
Import Examples.
Implicit Types (X : Matrix) (c y beta : Vector).

Lemma entry_fmap_seq (f : nat → Scalar) n k :
  (k < n)%nat → entry (f <$> seq 0 n) k = f k.
Proof.
  intros Hk. unfold entry. by rewrite list_lookup_fmap, lookup_seq_lt.
Qed.

Lemma entry_col X k i row : X !! i = Some row → entry (col X k) i = entry row k.
Proof. intros H. unfold entry at 1, col. by rewrite list_lookup_fmap, H. Qed.

Lemma length_col X k : length (col X k) = length X.
Proof. apply length_fmap. Qed.

Lemma length_transpose n X : length (transpose n X) = n.
Proof. unfold transpose. by rewrite length_fmap, length_seq. Qed.

Lemma length_vsub x y : length x = length y → length (vsub x y) = length x.
Proof. intros H. unfold vsub. rewrite length_zip_with. lia. Qed.

Lemma matvec_unit m n X k :
  rect m n X → (k < n)%nat → matvec X (unit n k) = col X k.
Proof.
  intros [_ Hrows] Hk. unfold matvec, col.
  apply list_fmap_ext. intros i row Hrow.
  rewrite dot_comm. apply dot_unit_l; eauto.
Qed.

(** [c . (X beta)] is [(X^T c) . beta]. *)
Lemma dot_columns m n X c beta :
  rect m n X → length c = m → length beta = n →
  dot ((λ k, dot c (col X k)) <$> seq 0 n) beta = dot c (matvec X beta).
Proof.
  intros [Hm Hrows] Hc Hb.
  rewrite (dot_sumf _ beta n) by (by rewrite ?length_fmap, ?length_seq).
  rewrite (dot_sumf c (matvec X beta) m) by (by rewrite ?length_matvec).
  rewrite (sumf_ext _ (λ k, sumf (λ i, entry c i
                       * entry (default [] (X !! i)) k * entry beta k) m) n).
  2:{ intros k Hk. rewrite entry_fmap_seq by done.
      rewrite (dot_sumf c (col X k) m) by (by rewrite ?length_col).
      rewrite Qcmult_comm, <- sumf_scale. apply sumf_ext. intros i Hi.
      destruct (lookup_lt_is_Some_2 X i) as [row Hrow]; [lia|].
      rewrite (entry_col X k i row Hrow), Hrow. simpl. ring. }
  rewrite sumf_exchange. apply sumf_ext. intros i Hi.
  destruct (lookup_lt_is_Some_2 X i) as [row Hrow]; [lia|].
  rewrite (entry_matvec X beta i row Hrow), Hrow. simpl.
  rewrite (dot_sumf row beta n) by eauto.
  rewrite <- sumf_scale. apply sumf_ext. intros k Hk. ring.
Qed.

Lemma matvec_transpose n X c :
  matvec (transpose n X) c = (λ k, dot c (col X k)) <$> seq 0 n.
Proof.
  unfold matvec, transpose. rewrite <- list_fmap_compose.
  apply list_fmap_ext. intros i k _. simpl. apply dot_comm.
Qed.

Lemma dot_transpose m n X c beta :
  rect m n X → length c = m → length beta = n →
  dot (matvec (transpose n X) c) beta = dot c (matvec X beta).
Proof.
  intros. rewrite matvec_transpose. by apply (dot_columns m).
Qed.

Lemma dot_sub_r x y z :
  length y = length z → dot x (vsub y z) = dot x y - dot x z.
Proof. intros H. rewrite !(dot_comm x). by apply dot_sub_l. Qed.

(** [XX * beta - X^T * y] is [X^T * (X * beta - y)]. *)
Lemma normal_equations m n X y beta :
  rect m n X → length y = m → length beta = n →
  vsub (matvec (matmul n (transpose n X) X) beta) (matvec (transpose n X) y)
  = matvec (transpose n X) (vsub (matvec X beta) y).
Proof.
  intros HX Hy Hb. pose proof HX as [Hm Hrows].
  assert (length (matvec (matmul n (transpose n X) X) beta) = n) as Hl1.
  { unfold matmul. by rewrite length_matvec, length_fmap, length_transpose. }
  apply (list_eq_same_length _ _ n).
  - by rewrite length_matvec, length_transpose.
  - rewrite length_vsub; [done|]. by rewrite Hl1, length_matvec, length_transpose.
  - intros k u v Hk Hu Hv.
    assert (u = entry (vsub (matvec (matmul n (transpose n X) X) beta)
                            (matvec (transpose n X) y)) k) as ->
      by (unfold entry; by rewrite Hu).
    assert (v = entry (matvec (transpose n X) (vsub (matvec X beta) y)) k) as ->
      by (unfold entry; by rewrite Hv).
    unfold vsub at 1.
    rewrite entry_sub by (by rewrite Hl1, length_matvec, length_transpose).
    rewrite !matvec_transpose, !entry_fmap_seq by done.
    rewrite dot_comm, dot_sub_l by (by rewrite length_matvec; congruence).
    f_equal; [|apply dot_comm].
    assert (matmul n (transpose n X) X !! k
            = Some ((λ j, dot (col X k) (col X j)) <$> seq 0 n)) as Hrow.
    { unfold matmul, transpose. rewrite !list_lookup_fmap, lookup_seq_lt by done.
      done. }
    rewrite (entry_matvec _ beta k _ Hrow).
    rewrite (dot_columns m) by (by rewrite ?length_col). apply dot_comm.
Qed.

Lemma vsub_vadd (a w y : Vector) :
  vsub (vadd a w) y = vadd (vsub a y) w.
Proof.
  revert w y. induction a as [|u a IH]; intros [|v w] [|z y]; try done.
  unfold vsub, vadd in *. simpl. f_equal; [ring|apply IH].
Qed.

Lemma residual_shift X y beta u alpha :
  length u = length beta →
  vsub (matvec X (vadd beta (vscale alpha u))) y
  = vadd (vsub (matvec X beta) y) (vscale alpha (matvec X u)).
Proof.
  intros Hu.
  rewrite matvec_vadd by (by rewrite length_vscale).
  by rewrite matvec_vscale, vsub_vadd.
Qed.

Lemma squared_shift (r w : Vector) alpha :
  length r = length w →
  dot (vadd r (vscale alpha w)) (vadd r (vscale alpha w))
  = dot r r + alpha * (dot r w + dot r w) + alpha * alpha * dot w w.
Proof.
  intros Hl.
  rewrite dot_vadd_l by (by rewrite length_vscale).
  rewrite !dot_vadd_r by (by rewrite length_vscale).
  rewrite !dot_vscale_l, !dot_vscale_r, (dot_comm w r). ring.
Qed.



Lemma matvec_mscale A a v : matvec (mscale A a) v = vscale a (matvec A v).
Proof.
  unfold matvec, mscale, vscale. rewrite <- !list_fmap_compose.
  apply list_fmap_ext. intros i row _. simpl.
  clear. revert v. induction row as [|u row IH]; intros [|z v]; simpl;
    try ring. rewrite IH. ring.
Qed.

Section Data.
Variables (m n : nat) (X : Matrix) (y beta : Vector).
Hypothesis HX : rect m n X.
Hypothesis Hy : length y = m.
Hypothesis Hbeta : length beta = n.

Lemma length_residual : length (vsub (matvec X beta) y) = m.
Proof.
  destruct HX as [Hm _]. rewrite length_vsub; rewrite length_matvec; congruence.
Qed.

(** The linear regression along a ray. *)
Lemma linear_regression_ray u alpha G :
  length u = n →
  gradient (LinearRegression n X y) beta = Ok G →
  value (LinearRegression n X y) (vadd beta (vscale alpha u))
  = value (LinearRegression n X y) beta + alpha * dot G u
    + alpha * alpha * (dec 5 10 * dot (matvec X u) (matvec X u)).
Proof.
  intros Hu HG. unfold gradient in HG. simpl in HG. injection HG as <-.
  rewrite (normal_equations m n) by done.
  rewrite (dot_transpose m n) by (done || apply length_residual).
  simpl. unfold squaredNorm.
  rewrite residual_shift by congruence.
  rewrite squared_shift
    by (rewrite length_residual, length_matvec; by destruct HX).
  qc_field.
Qed.

Lemma length_linear_regression_gradient G :
  gradient (LinearRegression n X y) beta = Ok G → length G = n.
Proof.
  intros HG. unfold gradient in HG. simpl in HG. injection HG as <-.
  rewrite (normal_equations m n) by done.
  by rewrite length_matvec, length_transpose.
Qed.

(** The non-negative least squares along a ray. *)
Lemma nnls_ray u alpha G :
  length u = n →
  gradient (NonNegativeLeastSquares n X y) beta = Ok G →
  value (NonNegativeLeastSquares n X y) (vadd beta (vscale alpha u))
  = value (NonNegativeLeastSquares n X y) beta + alpha * dot G u
    + alpha * alpha * dot (matvec X u) (matvec X u).
Proof.
  intros Hu HG. unfold gradient in HG. simpl in HG. injection HG as <-.
  rewrite matvec_mscale, dot_vscale_l.
  rewrite (dot_transpose m n) by (done || apply length_residual).
  simpl. rewrite residual_shift by congruence.
  rewrite squared_shift
    by (rewrite length_residual, length_matvec; by destruct HX).
  rewrite sc_2. ring.
Qed.

Lemma length_nnls_gradient G :
  gradient (NonNegativeLeastSquares n X y) beta = Ok G → length G = n.
Proof.
  intros HG. unfold gradient in HG. simpl in HG. injection HG as <-.
  unfold mscale. by rewrite length_matvec, length_fmap, length_transpose.
Qed.

End Data.

End ExampleFacts.

(** A gradient whose entries are the slopes of parabolas along the
    coordinates is the finite-difference gradient at every accuracy. *)
Lemma finiteGradient_coordinate_parabolas (value : Vector → Scalar)
    (x G : Vector) (a : nat) :
  (a ≤ 3)%nat → length G = length x →
  (∀ d, (d < length x)%nat →
     ∃ M, ∀ t, value (alter (λ v, v + t) d x)
               = value x + t * entry G d + t * t * M) →
  FiniteDiff.finiteGradient value x (Z.of_nat a) = Ok G.
Proof.
  intros Ha HlG Hpar.
  destruct (FiniteDiffFacts.tables a Ha)
    as (ws & os & den & Hc & Hc2 & Hdd & Hlw & Hlo & _).
  destruct (FiniteDiffFacts.finiteGradient_spec value x a ws os den)
    as (grad & -> & Hlen & Hall); [done..|].
  f_equal. apply (list_eq_same_length _ _ (length x)); [done..|].
  intros k u v Hk Hu Hv. rewrite Hall in Hu by lia. injection Hu as <-.
  destruct (Hpar k Hk) as [M HM].
  rewrite (stencil_quotient_polynomial value x a k ws os den
             (value x :: entry G k :: M :: replicate (2 * a) 0)); try done.
  - simpl. unfold entry. by rewrite Hv.
  - simpl. rewrite length_replicate. lia.
  - intros t. by rewrite polyval_quadratic.
Qed.

Lemma checkGradient_exact (p : Problem) (x G : Vector) (accuracy : Z) :
  (0 ≤ accuracy ≤ 3)%Z → gradient p x = Ok G → length G = length x →
  (∀ d, (d < length x)%nat →
     ∃ M, ∀ t, value p (alter (λ v, v + t) d x)
               = value p x + t * entry G d + t * t * M) →
  checkGradient p x accuracy = Ok true.
Proof.
  intros Hacc HG Hl Hpar. unfold checkGradient. rewrite HG. simpl.
  unfold finiteGradient. rewrite <- (Z2Nat.id accuracy) by lia.
  rewrite (finiteGradient_coordinate_parabolas (value p) x G) by (done || lia).
  simpl. by apply checkGradient_loop_same.
Qed.

Lemma ray_coordinate (value : Vector → Scalar) (x G : Vector) (q : Vector → Scalar) :
  length G = length x →
  (∀ u alpha, length u = length x →
     value (vadd x (vscale alpha u))
     = value x + alpha * dot G u + alpha * alpha * q u) →
  ∀ d, (d < length x)%nat →
    ∃ M, ∀ t, value (alter (λ v, v + t) d x)
              = value x + t * entry G d + t * t * M.
Proof.
  intros Hl Hray d Hd. exists (q (unit (length x) d)). intros t.
  rewrite perturb_unit, Hray by apply length_unit.
  by rewrite dot_comm, dot_unit_l.
Qed.

Lemma sample_X_rect : rect 3 2 sample_X.
Proof.
  split; [done|]. intros [|[|[|i]]] row Hrow; simpl in Hrow;
    [by injection Hrow as <-..|by destruct i].
Qed.

(** X17. The gradient that [LinearRegression] overrides is the exact
    gradient of its value: for data [X] of [m] rows and [n] columns, [y]
    of size [m] and [beta] of size [n], [checkGradient] returns [true] at
    every accuracy level of the tables. *)
Theorem linear_regression_checkGradient (m n : nat) (X : Matrix)
    (y beta : Vector) (accuracy : Z) :
  rect m n X → length y = m → length beta = n → (0 ≤ accuracy ≤ 3)%Z →
  checkGradient (Examples.LinearRegression n X y) beta accuracy = Ok true.
Proof.
  intros HX Hy Hb Hacc.
  destruct (gradient_defined (Examples.LinearRegression n X y) beta) as [G HG].
  pose proof (length_linear_regression_gradient m n X y beta HX Hy Hb G HG) as Hl.
  apply (checkGradient_exact _ beta G); [done..|congruence|].
  apply (ray_coordinate _ beta G
           (λ u, dec 5 10 * dot (matvec X u) (matvec X u))); [congruence|].
  intros u alpha Hu.
  apply (linear_regression_ray m n X y beta HX Hy Hb); [congruence|done].
Qed.

Lemma linear_regression_checkGradient_witness :
  checkGradient (Examples.LinearRegression 2 sample_X sample_y) [sc 0; sc 0] 3
  = Ok true.
Proof.
  apply (linear_regression_checkGradient 3 2 sample_X sample_y [sc 0; sc 0] 3);
    [apply sample_X_rect|reflexivity|reflexivity|lia].
Defined.



(** X19. The gradient that [NonNegativeLeastSquares] overrides is the exact
    gradient of its value: [checkGradient] returns [true] at every
    accuracy level of the tables. *)
Theorem nnls_checkGradient (m n : nat) (X : Matrix) (y beta : Vector)
    (accuracy : Z) :
  rect m n X → length y = m → length beta = n → (0 ≤ accuracy ≤ 3)%Z →
  checkGradient (Examples.NonNegativeLeastSquares n X y) beta accuracy
  = Ok true.
Proof.
  intros HX Hy Hb Hacc.
  destruct (gradient_defined (Examples.NonNegativeLeastSquares n X y) beta)
    as [G HG].
  pose proof (length_nnls_gradient n X y beta G HG) as Hl.
  apply (checkGradient_exact _ beta G); [done..|congruence|].
  apply (ray_coordinate _ beta G (λ u, dot (matvec X u) (matvec X u)));
    [congruence|].
  intros u alpha Hu.
  apply (nnls_ray m n X y beta HX Hy Hb); [congruence|done].
Qed.

Lemma nnls_checkGradient_witness :
  checkGradient (Examples.NonNegativeLeastSquares 2 sample_X sample_y)
    [sc 0; sc 0] 3 = Ok true.
Proof.
  apply (nnls_checkGradient 3 2 sample_X sample_y [sc 0; sc 0] 3);
    [apply sample_X_rect|reflexivity|reflexivity|lia].
Defined.



(** ** The further statements at sample inputs *)

Lemma checkHessian_spec_witness :
  ∃ analytic numeric b,
    hessian sample_problem [sc 1; sc 2] (mzero 2) = Ok analytic
    ∧ finiteHessian sample_problem [sc 1; sc 2] (mzero 2) 3 = Ok numeric
    ∧ checkHessian sample_problem [sc 1; sc 2] 3 = Ok b
    ∧ (b = true ↔
       ∀ i j a n, (i < 2)%nat → (j < 2)%nat →
         mget analytic i j = Ok a → mget numeric i j = Ok n →
         within_tolerance (dec 1 10) a n)
    ∧ ∀ (σ : Ref.store) (lx : nat),
        σ !! lx = Some (Ref.VectorObj [sc 1; sc 2]) →
        Ref.checkHessian sample_problem lx 3 σ = Ok (b, σ).
Proof.
  apply (checkHessian_spec sample_problem [sc 1; sc 2] 3).
  intros H Hov. discriminate Hov.
Defined.

Lemma finiteHessian_overwrites_witness :
  ∃ H, FiniteDiff.finiteHessian sample_value [sc 1; sc 2] (mzero 2) 3 = Ok H
    ∧ FiniteDiff.finiteHessian sample_value [sc 1; sc 2] sample_A 3 = Ok H
    ∧ square 2 H.
Proof.
  apply (finiteHessian_overwrites sample_value [sc 1; sc 2] 3 (mzero 2) sample_A);
    [apply square_mzero|apply sample_A_square].
Defined.

Lemma finiteGradient_accuracy_out_of_range_witness :
  FiniteDiff.finiteGradient sample_value [sc 1; sc 2] 4 = Undefined
  ∧ FiniteDiff.finiteGradient sample_value [] 4 = Ok [].
Proof.
  apply (finiteGradient_accuracy_out_of_range sample_value (sc 1) [sc 2] 4). lia.
Defined.

Lemma sample_value_along_first (t : Scalar) :
  sample_value (alter (λ v, v + t) 0%nat [sc 1; sc 2])
  = polyval [sc 7; sc 2; sc 1] t.
Proof. unfold polyval. simpl. qc_field. Qed.

Lemma finiteGradient_polynomial_exact_witness :
  ∃ grad, FiniteDiff.finiteGradient sample_value [sc 1; sc 2] 0 = Ok grad
    ∧ grad !! 0%nat = [sc 7; sc 2; sc 1] !! 1%nat.
Proof.
  apply (finiteGradient_polynomial_exact sample_value [sc 1; sc 2] 0 0
           [sc 7; sc 2; sc 1]);
    [lia|simpl; lia|reflexivity|apply sample_value_along_first].
Defined.

Lemma finiteGradient_quadratic_exact_witness :
  FiniteDiff.finiteGradient (quadratic sample_A sample_b) [sc 1; sc 2] 3
  = Ok (quadratic_gradient sample_A sample_b [sc 1; sc 2]).
Proof.
  apply (finiteGradient_quadratic_exact sample_A sample_b [sc 1; sc 2] 3);
    [lia|apply sample_A_square|apply sample_A_symmetric|reflexivity].
Defined.

Lemma checkGradient_passes_on_quadratic_witness :
  checkGradient sample_quadratic [sc 1; sc 2] 3 = Ok true.
Proof.
  apply (checkGradient_passes_on_quadratic sample_quadratic sample_A sample_b);
    [reflexivity|apply sample_A_square|apply sample_A_symmetric|reflexivity
    |intros g Hov; discriminate Hov|lia].
Defined.

Lemma checks_vacuous_without_override_witness :
  checkGradient sample_problem [sc 1; sc 2] 0 = Ok true
  ∧ checkHessian sample_problem [sc 1; sc 2] 0 = Ok true.
Proof. apply checks_vacuous_without_override; reflexivity. Defined.




